(** * sonm-monitoring-tools: the map-proxy snapshot cache and aggregator

    A shallow embedding of [map-proxy/main.go] (both copies of the program
    kept in the repository), of the geolocation loops and the output of
    [rv-mon/main.go] and of its sibling monitor, and of the metrics of
    [relay-mon/main.go], followed by the properties of the cache, the
    per-peer totals, the refresh cycle, the scheduler loop and the monitors.

    Conventions of the embedding:
    - a Go map value is an [option (gmap ..)]: [None] is the nil map, and
      [Some ∅] the empty map made by a literal;
    - a Go [(value, error)] pair stays a pair, the error being an
      [option error];
    - [uint64] and [int] are integers with the wrap-around written out;
    - [float64] and the 53-bit [big.Float] values are [spec_float]s, rounded
      to nearest even by the operations of [SpecFloat];
    - the remote collaborators (directory, ledger, geolocation database)
      appear through the replies they gave during one cycle; the decoded
      messages are taken with their sub-messages present, so that the
      getters and field reads of the loops do not meet a nil pointer. *)

From Stdlib Require Import ZArith Ascii String Lia.
From Stdlib Require Import Floats.SpecFloat.
From stdpp Require Import gmap strings list fin_maps.

(** ** Go-level vocabulary *)

Module Go.

Definition error := string.

(** What running a piece of code ends in: a normal return, a run-time
    panic, or [os.Exit code]. *)
Inductive outcome (A : Type) : Type :=
| Returned (a : A)
| Panicked
| Exited (code : Z).
Arguments Returned {A} a.
Arguments Panicked {A}.
Arguments Exited {A} code.

Definition bind {A B} (x : outcome A) (k : A → outcome B) : outcome B :=
  match x with
  | Returned a => k a
  | Panicked => Panicked
  | Exited c => Exited c
  end.

(** [for _, x := range xs { acc = body acc x }] where the body may panic. *)
Fixpoint range_loop {A S} (body : S → A → outcome S) (xs : list A) (acc : S)
  : outcome S :=
  match xs with
  | [] => Returned acc
  | x :: rest => bind (body acc x) (range_loop body rest)
  end.

(** What a remote collaborator or a library call answered. *)
Inductive reply (A : Type) : Type :=
| Reply (a : A)
| Failed (err : error).
Arguments Reply {A} a.
Arguments Failed {A} err.

(** Machine integers. *)
Definition wrap_uint64 (z : Z) : Z := (z mod 2 ^ 64)%Z.
Definition wrap_int (z : Z) : Z := ((z + 2 ^ 63) mod 2 ^ 64 - 2 ^ 63)%Z.

(** [float64]. *)
Definition float64 := spec_float.
Definition float64_zero : float64 := S754_zero false.
Definition float64_of_const (z : Z) : float64 :=
  binary_normalize 53 1024 z 0 false.

(** [math/big]: a [big.Float] made by [big.NewFloat] has precision 53 and
    rounds to nearest even; its exponent is bounded by [MaxExp]. *)
Definition big_prec : Z := 53.
Definition big_MaxExp : Z := (2 ^ 31 - 1)%Z.

Definition NewFloat (x : float64) : spec_float := x.
Definition SetInt (x : Z) : spec_float :=
  binary_normalize big_prec big_MaxExp x 0 false.
Definition Quo (x y : spec_float) : spec_float :=
  SFdiv big_prec big_MaxExp x y.
(** [Float64] of a [big.Float]: the nearest [float64]. *)
Definition Float64 (x : spec_float) : float64 :=
  match x with
  | S754_finite s m e => binary_round 53 1024 s m e
  | _ => x
  end.

(** [strings.Split s "//"]. *)
Fixpoint split_slashes (s : string) (cur : string) : list string :=
  match s with
  | EmptyString => [String.rev cur]
  | String "/"%char (String "/"%char rest) => String.rev cur :: split_slashes rest EmptyString
  | String c rest => split_slashes rest (String c cur)
  end.
Definition Split_slashes (s : string) : list string :=
  split_slashes s EmptyString.

End Go.

Import Go.

(** ** map-proxy: data model and cache (main.go, lines 51-89) *)

Module MapProxy.

Record PeerPoint := {
  Lat : float64;
  Lon : float64;
  Count : Z;
  Income : float64;
  CPUCount : Z;
  GPUCount : Z;
  RAMSize : Z
}.

(** [PeerPoint{}] *)
Definition PeerPoint_zero : PeerPoint :=
  {| Lat := float64_zero; Lon := float64_zero; Count := 0; Income := float64_zero;
     CPUCount := 0; GPUCount := 0; RAMSize := 0 |}.

(** A value of type [map[string]PeerPoint]. *)
Abbreviation peers_map := (option (gmap string PeerPoint)).

(** The two slots. The mutex [mu] is held for the whole of [update] and
    of [get], so concurrent calls take effect one at a time: a run of the
    cache is a sequence of these two functions. *)
Record cache := { green : peers_map; blue : peers_map }.

Definition update (c : cache) (peers : peers_map) : cache :=
  match green c with
  | None => {| green := peers; blue := None |}
  | Some _ => {| green := None; blue := peers |}
  end.

Definition get (c : cache) : peers_map :=
  match green c with
  | Some _ => green c
  | None => blue c
  end.

(** [cache{green: peers}] as [main] builds it, and the zero value. *)
Definition cache_of (peers : peers_map) : cache :=
  {| green := peers; blue := None |}.
Definition cache_zero : cache := {| green := None; blue := None |}.

(** Calls made on a cache, and what the readers saw. *)
Inductive call := CallUpdate (peers : peers_map) | CallGet.

Fixpoint run (c : cache) (calls : list call) : cache * list peers_map :=
  match calls with
  | [] => (c, [])
  | CallUpdate s :: rest => run (update c s) rest
  | CallGet :: rest =>
      let '(c', seen) := run c rest in (c', get c :: seen)
  end.

(** The snapshots handed to [update] by a sequence of calls. *)
Fixpoint updates (calls : list call) : list peers_map :=
  match calls with
  | [] => []
  | CallUpdate s :: rest => s :: updates rest
  | CallGet :: rest => updates rest
  end.

(** *** loadDeals (main.go, lines 128-160) *)

(** One accepted deal as the ledger returns it: the three benchmark
    readings and the price. *)
Record Deal := {
  deal_CPUCores : Z;
  deal_GPUCount : Z;
  deal_RAMSize : Z;
  deal_Price : Z
}.

(** [params.Ether] of go-ethereum: the number of wei in one ether. *)
Definition params_Ether : Z := (10 ^ 18)%Z.

(** The body of [for _, deal := range deals.GetDeals()], on the pair of
    the point being built and the [big.Int] income. *)
Definition deal_step (acc : PeerPoint * Z) (deal : Deal) : PeerPoint * Z :=
  let '(p, income) := acc in
  ({| Lat := Lat p;
      Lon := Lon p;
      Count := wrap_int (Count p + 1);
      Income := Income p;
      CPUCount := wrap_uint64 (CPUCount p + deal_CPUCores deal);
      GPUCount := wrap_uint64 (GPUCount p + deal_GPUCount deal);
      RAMSize := deal_RAMSize deal |},
   (income + deal_Price deal)%Z).

Definition perHour (income : Z) : Z := (income * 3600)%Z.

(** [perHourF], [total] and [total.Float64()]. *)
Definition normalize (perHour : Z) : float64 :=
  let perHourF := SetInt perHour in
  let total := Quo perHourF (NewFloat (float64_of_const params_Ether)) in
  Float64 total.

Definition with_Income (p : PeerPoint) (x : float64) : PeerPoint :=
  {| Lat := Lat p; Lon := Lon p; Count := Count p; Income := x;
     CPUCount := CPUCount p; GPUCount := GPUCount p; RAMSize := RAMSize p |}.

(** [loadDeals], given what [dwh.GetDeals] answered. *)
Definition loadDeals (deals : reply (list Deal)) : PeerPoint * option error :=
  match deals with
  | Failed err => (PeerPoint_zero, Some err)
  | Reply ds =>
      let '(p, income) := foldl deal_step (PeerPoint_zero, 0%Z) ds in
      (with_Income p (normalize (perHour income)), None)
  end.

(** *** loadPeersData (main.go, lines 162-197) *)

Record Location := { Latitude : float64; Longitude : float64 }.

(** One element of [state.GetServers()], with what the ledger and the
    geolocation database answered when the loop body ran for it. *)
Record Server := {
  PublicAddr : string;
  dwh_GetDeals : reply (list Deal);
  db_City : reply Location
}.

(** [info.GetState()], in the order one [range] went through it. *)
Abbreviation State := (list (string * list Server)).

Definition with_location (p : PeerPoint) (rec : Location) : PeerPoint :=
  {| Lat := Latitude rec; Lon := Longitude rec; Count := Count p; Income := Income p;
     CPUCount := CPUCount p; GPUCount := GPUCount p; RAMSize := RAMSize p |}.

(** *** The publish handler (main.go, lines 220-228) *)

(** The document [json.Marshal] writes for a map: [null] for the nil
    map, an object with one member per key otherwise. *)
Inductive json := JNull | JObject (members : gmap string PeerPoint).

(** [encoding/json] refuses a [float64] that is infinite or not a number. *)
Definition float_supported (f : float64) : bool :=
  match f with
  | S754_zero _ | S754_finite _ _ _ => true
  | _ => false
  end.

Definition point_supported (p : PeerPoint) : bool :=
  float_supported (Lat p) && float_supported (Lon p) && float_supported (Income p).

Definition json_Marshal (points : peers_map) : option json :=
  match points with
  | None => Some JNull
  | Some m =>
      if decide (map_Forall (λ _ p, point_supported p = true) m)
      then Some (JObject m) else None
  end.

(** The body written for one request; [None] is the empty body written
    when [json.Marshal] failed and its error was dropped. *)
Definition handler (data : cache) : option json :=
  json_Marshal (get data).

(** *** The events of main (main.go, lines 199-250) *)

Inductive event :=
| Tick (info : reply State)      (* [<-tk.C], with the directory's answer *)
| Request                        (* one GET on the publish endpoint *)
| ListenFailed                   (* [http.ListenAndServe] returned *)
| Done.                          (* [<-ctx.Done()] *)

Inductive process :=
| Running (data : cache)
| Exit (code : Z)
| Panic.

Section Aggregator.
(** [common.HexToAddress] and [Address.Hex] of go-ethereum. *)
Context {Address : Type}.
Variable HexToAddress : string → Address.
Variable Hex : Address → string.

(** The body of the inner loop, lines 174-192. *)
Definition server_body (addr : string) (peers : gmap string PeerPoint)
    (srv : Server) : outcome (gmap string PeerPoint) :=
  let parts := Split_slashes addr in
  match parts !! 1%nat with
  | None => Panicked
  | Some part =>
      let peerEth := HexToAddress part in
      match loadDeals (dwh_GetDeals srv) with
      | (_, Some _) => Returned peers
      | (point, None) =>
          match db_City srv with
          | Failed _ => Returned peers
          | Reply rec => Returned (<[Hex peerEth := with_location point rec]> peers)
          end
      end
  end.

Definition state_body (peers : gmap string PeerPoint)
    (entry : string * list Server) : outcome (gmap string PeerPoint) :=
  range_loop (server_body entry.1) entry.2 peers.

(** Lines 171-194: the two nested loops over a fresh map. *)
Definition collect (state : State) : outcome (gmap string PeerPoint) :=
  range_loop state_body state ∅.

Definition loadPeersData (info : reply State) : outcome (peers_map * option error) :=
  match info with
  | Failed err => Returned (None, Some err)
  | Reply state => bind (collect state) (λ peers, Returned (Some peers, None))
  end.

(** *** main (main.go, lines 199-250) *)

(** Lines 209-214. *)
Definition main_start (info : reply State) : process :=
  match loadPeersData info with
  | Returned (_, Some _) => Exit 0
  | Returned (peers, None) => Running (cache_of peers)
  | Panicked => Panic
  | Exited code => Exit code
  end.

(** One turn of the [for { select { .. } }] loop, or one request served
    meanwhile; the second component is the body sent, if any. *)
Definition main_step (data : cache) (ev : event) : process * option (option json) :=
  match ev with
  | Done => (Exit 0, None)
  | ListenFailed => (Exit 1, None)
  | Request => (Running data, Some (handler data))
  | Tick info =>
      match loadPeersData info with
      | Returned (_, Some _) => (Running data, None)
      | Returned (peers, None) => (Running (update data peers), None)
      | Panicked => (Panic, None)
      | Exited code => (Exit code, None)
      end
  end.

Fixpoint main_loop (data : cache) (evs : list event)
  : process * list (option json) :=
  match evs with
  | [] => (Running data, [])
  | ev :: rest =>
      match main_step data ev with
      | (Running data', out) =>
          let '(p, outs) := main_loop data' rest in
          (p, match out with Some b => b :: outs | None => outs end)
      | (p, _) => (p, [])
      end
  end.

End Aggregator.

End MapProxy.

(** ** map-proxy, second copy (main.go, lines 273-512)

    The data model, the cache and [loadDeals] are the same text up to
    logging; [loadPeersData] has no error result and [main] no error
    branch. *)

Module MapProxyAlt.
Import MapProxy.

Section Aggregator.
Context {Address : Type}.
Variable HexToAddress : string → Address.
Variable Hex : Address → string.

(** Lines 433-470. *)
Definition loadPeersData (info : reply State) : outcome peers_map :=
  match info with
  | Failed _ => Exited 1
  | Reply state => bind (collect HexToAddress Hex state) (λ peers, Returned (Some peers))
  end.

(** Lines 480-481. *)
Definition main_start (info : reply State) : process :=
  match loadPeersData info with
  | Returned peers => Running (cache_of peers)
  | Panicked => Panic
  | Exited code => Exit code
  end.

(** Lines 502-511 and the handler. *)
Definition main_step (data : cache) (ev : event) : process * option (option json) :=
  match ev with
  | Done => (Exit 0, None)
  | ListenFailed => (Exit 1, None)
  | Request => (Running data, Some (handler data))
  | Tick info =>
      match loadPeersData info with
      | Returned peers => (Running (update data peers), None)
      | Panicked => (Panic, None)
      | Exited code => (Exit code, None)
      end
  end.

End Aggregator.

End MapProxyAlt.

(** ** rv-mon (rv-mon/main.go, lines 112-138) and its sibling monitor
    (lines 98-125 of the second monitor program) *)

Module RvMon.

(** The part of a [geoip2.City] record the loops read. *)
Record City := {
  Location_Latitude : float64;
  Location_Longitude : float64;
  City_Names : gmap string string;
  Country_Names : gmap string string
}.

(** The record [db.City] hands back next to an error: every field zero. *)
Definition City_zero : City :=
  {| Location_Latitude := float64_zero; Location_Longitude := float64_zero;
     City_Names := ∅; Country_Names := ∅ |}.

(** One element of [state.GetServers()], with the pair [rec, err] that
    [db.City] returned for it; [None] as [rec] is the nil pointer. *)
Record Server := {
  PublicAddr : string;
  db_City : option City * option error
}.

(** [pointCounters] and [nameCache]. *)
Record tables := {
  pointCounters : gmap string Z;
  nameCache : gmap string string
}.

Definition tables_empty : tables := {| pointCounters := ∅; nameCache := ∅ |}.

Section Loops.
(** [geohash.Encode]. *)
Variable geohash_Encode : float64 → float64 → string.

(** The statements after the error check: lines 123-136 of rv-mon, lines
    110-123 of the sibling. *)
Definition count_point (t : tables) (rec : City) : tables :=
  let pointEncoded := geohash_Encode (Location_Latitude rec) (Location_Longitude rec) in
  let name :=
    if (0 <? String.length (default EmptyString (City_Names rec !! "en"%string)))%nat
    then default EmptyString (City_Names rec !! "en"%string)
    else default EmptyString (Country_Names rec !! "en"%string) in
  {| nameCache := <[pointEncoded := name]> (nameCache t);
     pointCounters :=
       match pointCounters t !! pointEncoded with
       | Some n => <[pointEncoded := wrap_int (n + 1)]> (pointCounters t)
       | None => <[pointEncoded := 1%Z]> (pointCounters t)
       end |}.

(** rv-mon: the error is logged and the loop body goes on. *)
Definition server_body (t : tables) (srv : Server) : outcome tables :=
  let '(rec, err) := db_City srv in
  match rec with
  | None => Panicked
  | Some rec => Returned (count_point t rec)
  end.

(** The sibling: the error is logged and the server is skipped. *)
Definition server_body_sibling (t : tables) (srv : Server) : outcome tables :=
  let '(rec, err) := db_City srv in
  match err with
  | Some _ => Returned t
  | None =>
      match rec with
      | None => Panicked
      | Some rec => Returned (count_point t rec)
      end
  end.

(** The two nested loops of rv-mon, and those of the sibling. *)
Definition count_servers (states : list (list Server)) : outcome tables :=
  range_loop (λ t servers, range_loop server_body servers t) states tables_empty.

Definition count_servers_sibling (states : list (list Server)) : outcome tables :=
  range_loop (λ t servers, range_loop server_body_sibling servers t) states tables_empty.

End Loops.

End RvMon.

(** ** Vocabulary of the statements *)

(** The exact sum of an integer quantity over a list. *)
Definition sum_over {A} (f : A → Z) (l : list A) : Z :=
  foldr (λ a acc, (f a + acc)%Z) 0%Z l.

(** [0 <= f] as Go evaluates it on a [float64]. *)
Definition float64_nonneg (f : float64) : bool := SFleb float64_zero f.

(** Positive zero, a positive number or positive infinity. *)
Definition plus_signed (f : spec_float) : Prop :=
  match f with
  | S754_zero false | S754_finite false _ _ | S754_infinity false => True
  | _ => False
  end.

Section AggregatorVocabulary.
Import MapProxy.
Context {Address : Type}.
Variable HexToAddress : string → Address.
Variable Hex : Address → string.

(** The key under which line 192 stores a peer listed as [addr]. *)
Definition peer_key (addr : string) : option string :=
  (λ part, Hex (HexToAddress part)) <$> (Split_slashes addr !! 1%nat).

(** The record line 192 stores for a server: there is one when both the
    ledger and the geolocation database answered. *)
Definition resolved (srv : Server) : option PeerPoint :=
  match loadDeals (dwh_GetDeals srv), db_City srv with
  | (point, None), Reply rec => Some (with_location point rec)
  | _, _ => None
  end.

Definition entry_records (entry : string * list Server) : list (string * PeerPoint) :=
  match peer_key entry.1 with
  | Some k => omap (λ srv, pair k <$> resolved srv) entry.2
  | None => []
  end.

(** The keyed records of one cycle, in the order the loops stored them. *)
Definition records (state : State) : list (string * PeerPoint) :=
  state ≫= entry_records.

(** The merge of a record into the snapshot: the assignment of line 192. *)
Definition merge (peers : gmap string PeerPoint) (r : string * PeerPoint)
  : gmap string PeerPoint := <[r.1 := r.2]> peers.

(** No address of the directory makes [parts[1]] fail. *)
Definition wellformed_entry (entry : string * list Server) : bool :=
  match entry.2, Split_slashes entry.1 !! 1%nat with
  | [], _ => true
  | _ :: _, Some _ => true
  | _ :: _, None => false
  end.

Definition wellformed (state : State) : bool := forallb wellformed_entry state.

End AggregatorVocabulary.

(** ** Sample cycles *)

Module Samples.
Import MapProxy.

Definition peer1 : string := "0x0000000000000000000000000000000000000001".
Definition peer2 : string := "0x0000000000000000000000000000000000000002".

(** For these two addresses [HexToAddress] followed by [Hex] gives back
    the text, which has no letter to re-case: both are taken as the
    identity on strings in the samples. *)
Definition HexToAddress (s : string) : string := s.
Definition Hex (a : string) : string := a.

Definition berlin : Location :=
  {| Latitude := float64_of_const 52; Longitude := float64_of_const 13 |}.
Definition quito : Location :=
  {| Latitude := float64_of_const 0; Longitude := float64_of_const (-78) |}.

Definition deal_small : Deal :=
  {| deal_CPUCores := 2; deal_GPUCount := 0; deal_RAMSize := 1024; deal_Price := 0 |}.
Definition deal_large : Deal :=
  {| deal_CPUCores := 4; deal_GPUCount := 1; deal_RAMSize := 2048; deal_Price := 0 |}.

Definition server_at (ip : string) (deals : reply (list Deal)) (rec : reply Location)
  : Server :=
  {| PublicAddr := ip; dwh_GetDeals := deals; db_City := rec |}.

(** Two peers that the database places at the same point. *)
Definition two_peers_one_point : State :=
  [ ("tcp://" +:+ peer1, [server_at "10.0.0.1" (Reply [deal_small]) (Reply berlin)]);
    ("tcp://" +:+ peer2, [server_at "10.0.0.2" (Reply [deal_large]) (Reply berlin)]) ].

(** One peer listed under two protocols, its servers at different points. *)
Definition one_peer_two_points : State :=
  [ ("tcp://" +:+ peer1, [server_at "10.0.0.1" (Reply [deal_small]) (Reply berlin)]);
    ("udp://" +:+ peer1, [server_at "10.9.0.1" (Reply [deal_small]) (Reply quito)]) ].

(** The ledger fails for the second peer. *)
Definition ledger_down_for_peer2 : State :=
  [ ("tcp://" +:+ peer1, [server_at "10.0.0.1" (Reply [deal_small]) (Reply berlin)]);
    ("tcp://" +:+ peer2, [server_at "10.0.0.2" (Failed "context deadline exceeded")
                            (Reply quito)]) ].

(** A server of rv-mon for which [db.City] returned an error next to the
    zero record. *)
Definition unlocated_server : RvMon.Server :=
  {| RvMon.PublicAddr := "localhost";
     RvMon.db_City :=
       (Some RvMon.City_zero, Some "ipAddress passed to Lookup cannot be nil"%string) |}.

(** The same failure seen by map-proxy. *)
Definition unlocated_peer : State :=
  [ ("tcp://" +:+ peer1,
     [server_at "localhost" (Reply [deal_small])
        (Failed "ipAddress passed to Lookup cannot be nil")]) ].

End Samples.

(** ** rv-mon: the output (rv-mon/main.go, lines 140-180; the sibling has
    the same functions at lines 127-167) *)

Module RvMonOutput.
Import RvMon.

(** [names[hash]]: the empty string for a missing key. *)
Definition names_at (names : gmap string string) (hash : string) : string :=
  default EmptyString (names !! hash).

(** What one turn of [for hash, counter := range points] works with: the
    geohash, [names[hash]] and the counter. [writeToConsole] prints the
    three, [writeToInflux] puts them in the fields of a point. The order of
    the turns is the one of the map iteration. *)
Definition rows (points : gmap string Z) (names : gmap string string)
  : list (string * string * Z) :=
  (λ hc, (hc.1, names_at names hc.1, hc.2)) <$> map_to_list points.

(** An [influx.Point] as lines 157-165 fill it. *)
Record Point := {
  Measurement : string;
  Field_geohash : string;
  Field_name : string;
  Field_count : Z;
  Precision : string
}.

Record BatchPoints := {
  Database : string;
  Batch_Precision : string;
  Points : list Point
}.

Definition point_of_row (row : string * string * Z) : Point :=
  {| Measurement := "map_data"; Field_geohash := row.1.1; Field_name := row.1.2;
     Field_count := row.2; Precision := "s" |}.

(** Lines 154-172: [infPoints] and [pb]. *)
Definition batch (points : gmap string Z) (names : gmap string string) : BatchPoints :=
  {| Database := "telegraf"; Batch_Precision := "s";
     Points := point_of_row <$> rows points names |}.

(** [writeToInflux], given the error of [influx.NewClient] and the one of
    [infc.Write]: the batch handed to the client, or exit status 1. *)
Definition writeToInflux (points : gmap string Z) (names : gmap string string)
    (client_err write_err : option error) : outcome BatchPoints :=
  let pb := batch points names in
  match client_err with
  | Some _ => Exited 1
  | None =>
      match write_err with
      | Some _ => Exited 1
      | None => Returned pb
      end
  end.

End RvMonOutput.

(** ** relay-mon: the metrics (relay-mon/main.go, lines 105-113) *)

Module RelayMon.

(** [strings.Split s ":"]. *)
Fixpoint split_colon (s : string) (cur : string) : list string :=
  match s with
  | EmptyString => [String.rev cur]
  | String c rest =>
      if Ascii.eqb c ":"%char
      then String.rev cur :: split_colon rest EmptyString
      else split_colon rest (String c cur)
  end.
Definition Split_colon (s : string) : list string := split_colon s EmptyString.

(** [strings.Replace s "." "_" n] for a count [n] that is not negative. *)
Fixpoint Replace_dots (s : string) (n : nat) : string :=
  match s, n with
  | EmptyString, _ => EmptyString
  | _, O => s
  | String c rest, S n' =>
      if Ascii.eqb c "."%char
      then String "_"%char (Replace_dots rest n')
      else String c (Replace_dots rest n)
  end.

(** The values handed to [fmt.Printf] at lines 112-113. *)
Record metrics := {
  iponly : string;
  members : Z;
  expect : Z;
  membersDiff : Z;
  connCount : Z
}.

(** Lines 105-109, given the number of cluster members, the value of the
    flag [-count] and the current number of connections. *)
Definition calculate (endpointFlag : string) (expectedCountFlag : Z)
    (cluster_members : nat) (connCurrent : Z) : outcome metrics :=
  let members := wrap_int (Z.of_nat cluster_members) in
  let membersDiff := wrap_uint64 (wrap_uint64 members - expectedCountFlag) in
  match Split_colon endpointFlag !! 0%nat with
  | None => Panicked
  | Some host =>
      Returned {| iponly := Replace_dots host 4; members := members;
                  expect := expectedCountFlag; membersDiff := membersDiff;
                  connCount := connCurrent |}
  end.

End RelayMon.

(** ** Further vocabulary *)

(** Whether a character occurs in a string, and how often. *)
Fixpoint count_char (c : ascii) (s : string) : nat :=
  match s with
  | EmptyString => 0
  | String c' rest => (if Ascii.eqb c' c then 1 else 0) + count_char c rest
  end.

(** [strings.Join parts "//"]. *)
Fixpoint Join_slashes (parts : list string) : string :=
  match parts with
  | [] => EmptyString
  | [part] => part
  | part :: rest => part +:+ "//" +:+ Join_slashes rest
  end.

(** That a string has the separator [//] somewhere. *)
Definition has_separator (s : string) : Prop :=
  ∃ a b, s = a +:+ "//" +:+ b.

(** A float that is a number or an infinity. *)
Definition is_number (f : spec_float) : Prop :=
  match f with
  | S754_nan => False
  | _ => True
  end.

Section SchedulerVocabulary.
Import MapProxy.
Context {Address : Type}.
Variable HexToAddress : string → Address.
Variable Hex : Address → string.

(** The snapshot a tick installs, if it installs one. *)
Definition installed_by (ev : event) : option peers_map :=
  match ev with
  | Tick info =>
      match loadPeersData HexToAddress Hex info with
      | Returned (peers, None) => Some peers
      | _ => None
      end
  | _ => None
  end.

End SchedulerVocabulary.

Section MonitorVocabulary.
Import RvMon.
Variable geohash_Encode : float64 → float64 → string.

(** The geohash and the name lines 123-129 compute for a record. *)
Definition point_of (rec : City) : string :=
  geohash_Encode (Location_Latitude rec) (Location_Longitude rec).

Definition name_of (rec : City) : string :=
  if (0 <? String.length (default EmptyString (City_Names rec !! "en"%string)))%nat
  then default EmptyString (City_Names rec !! "en"%string)
  else default EmptyString (Country_Names rec !! "en"%string).

(** The records rv-mon counts, and those its sibling counts. *)
Definition counted (states : list (list Server)) : list City :=
  omap (λ srv, (db_City srv).1) (concat states).

Definition counted_sibling (states : list (list Server)) : list City :=
  omap (λ srv, match (db_City srv).2 with
               | Some _ => None
               | None => (db_City srv).1
               end) (concat states).

(** How often a geohash occurs among records. *)
Definition occurrences (h : string) (recs : list City) : nat :=
  length (filter (λ rec, point_of rec = h) recs).

End MonitorVocabulary.

(** ** Further sample inputs *)

Module MoreSamples.
Import Samples.

(** A stand-in for [geohash.Encode] that tells the sample places apart:
    the zero place gets its real geohash, any other place one other text. *)
Definition Encode (lat lon : float64) : string :=
  match lat, lon with
  | S754_zero _, S754_zero _ => "s00000000000"
  | _, _ => "u33db2m3728h"
  end.

Definition berlin_record : RvMon.City :=
  {| RvMon.Location_Latitude := float64_of_const 52;
     RvMon.Location_Longitude := float64_of_const 13;
     RvMon.City_Names := {[ "en"%string := "Berlin"%string ]};
     RvMon.Country_Names := {[ "en"%string := "Germany"%string ]} |}.

Definition located_server : RvMon.Server :=
  {| RvMon.PublicAddr := "10.0.0.1"; RvMon.db_City := (Some berlin_record, None) |}.

(** The tables rv-mon ends with on the server without a place. *)
Definition unlocated_tables : RvMon.tables :=
  {| RvMon.pointCounters := {[ "s00000000000"%string := 1%Z ]};
     RvMon.nameCache := {[ "s00000000000"%string := EmptyString ]} |}.

(** A run of the scheduler: an empty directory, a failed query, a request. *)
Definition quiet_run : list MapProxy.event :=
  [ MapProxy.Tick (Reply []); MapProxy.Tick (Failed "rv: unavailable"); MapProxy.Request ].

End MoreSamples.

(** ** Properties of the cache *)

Section CacheProperties.
Import MapProxy.

Lemma get_update (c : cache) (s : peers_map) : get (update c s) = s.
Proof.
  unfold get, update.
  destruct (green c) as [g|]; simpl; [reflexivity|].
  destruct s; reflexivity.
Qed.

Lemma run_app (c : cache) (before after : list call) :
  run c (before ++ after) =
  ((run (run c before).1 after).1, (run c before).2 ++ (run (run c before).1 after).2).
Proof.
  revert c. induction before as [|[s|] before IH]; intros c; simpl.
  - destruct (run c after); reflexivity.
  - apply IH.
  - rewrite IH. destruct (run c before) as [c1 seen1]; simpl.
    destruct (run c1 after); reflexivity.
Qed.

Lemma last_cons_default {A} (l : list A) (x d d' : A) :
  List.last (x :: l) d = List.last (x :: l) d'.
Proof.
  revert x. induction l as [|y l IH]; intros x; [reflexivity|].
  change (List.last (y :: l) d = List.last (y :: l) d'). apply IH.
Qed.

Lemma last_cons {A} (l : list A) (x d : A) : List.last (x :: l) d = List.last l x.
Proof. destruct l as [|y l]; [reflexivity|]. apply (last_cons_default l y d x). Qed.

Lemma last_elem_of {A} (l : list A) (d : A) : List.last l d ∈ d :: l.
Proof.
  revert d. induction l as [|x l IH]; intros d.
  - apply list_elem_of_here.
  - rewrite last_cons. apply list_elem_of_further, IH.
Qed.

(** After any calls, a reader gets the last snapshot handed to [update],
    or what it would have got at the start when there was no [update]. *)
Lemma get_after_run (c : cache) (calls : list call) :
  get (run c calls).1 = List.last (updates calls) (get c).
Proof.
  revert c. induction calls as [|[s|] calls IH]; intros c.
  - reflexivity.
  - cbn [run updates]. rewrite IH, get_update.
    destruct (updates calls) as [|u us] eqn:E; [reflexivity|].
    symmetry. apply (last_cons_default (u :: us) s).
  - cbn [run updates]. specialize (IH c).
    destruct (run c calls) as [c' seen]. exact IH.
Qed.

End CacheProperties.

Section CacheClaims.
Import MapProxy.

(** C1. Whatever calls were made on a cache built from one complete
    snapshot [s0], a [get] placed after the calls [before] is answered with
    exactly the snapshot most recently installed before it - the last
    argument of [update] among [before], or [s0] when there is none - which
    is one of the installed snapshots and never a blend of two; and a
    [get] right after [update s] returns [s]. *)
Theorem cache_get_returns_installed_snapshot
    (s0 : peers_map) (before after : list call) :
  let answer := List.last (updates before) s0 in
  (run (cache_of s0) (before ++ CallGet :: after)).2
     !! length (run (cache_of s0) before).2 = Some answer
  ∧ answer ∈ s0 :: updates before
  ∧ ∀ (c : cache) (s : peers_map), get (update c s) = s.
Proof.
  intros answer. split; [|split].
  - rewrite run_app. cbn [snd run].
    destruct (run (run (cache_of s0) before).1 after) as [c' seen'] eqn:E.
    cbn [snd]. rewrite lookup_app_r by lia.
    rewrite Nat.sub_diag. cbn [lookup list_lookup].
    f_equal. rewrite get_after_run.
    unfold answer, cache_of, get; simpl. destruct s0; reflexivity.
  - apply last_elem_of.
  - apply get_update.
Qed.

(** C10. [update s] leaves [s] in one slot and nil in the other; hence in
    every state reached from [cache{green: s0}] at most one slot is not
    nil, and [get] returns that slot. *)
Theorem update_keeps_one_slot (s0 : peers_map) (calls : list call) :
  (∀ (c : cache) (s : peers_map),
      (green (update c s) = s ∧ blue (update c s) = None)
      ∨ (blue (update c s) = s ∧ green (update c s) = None))
  ∧ let c := (run (cache_of s0) calls).1 in
    (green c = None ∨ blue c = None)
    ∧ (green c ≠ None → get c = green c)
    ∧ (blue c ≠ None → get c = blue c).
Proof.
  split.
  - intros c s. unfold update. destruct (green c); simpl; auto.
  - assert (Inv : ∀ calls' c, (green c = None ∨ blue c = None) →
              green (run c calls').1 = None ∨ blue (run c calls').1 = None).
    { induction calls' as [|[s|] calls' IH]; intros c Hc; cbn [run].
      - exact Hc.
      - apply IH. unfold update. destruct (green c); simpl; auto.
      - specialize (IH c Hc). destruct (run c calls'). exact IH. }
    specialize (Inv calls (cache_of s0) (or_intror eq_refl)).
    cbv zeta. destruct (run (cache_of s0) calls).1 as [g b]; simpl in *.
    split; [exact Inv|]. unfold get; simpl. split.
    + destruct g; [reflexivity|]. intros H; by destruct H.
    + intros Hb. destruct Inv as [->| ->]; [reflexivity|]. by destruct Hb.
Qed.

End CacheClaims.

(** ** Properties of the scheduler loop and of the publish handler *)

Section SchedulerClaims.
Import MapProxy.
Context {Address : Type}.
Variable HexToAddress : string → Address.
Variable Hex : Address → string.

Lemma main_start_running (info : reply State) (data : cache) :
  main_start HexToAddress Hex info = Running data →
  ∃ state peers, info = Reply state
    ∧ collect HexToAddress Hex state = Returned peers
    ∧ data = cache_of (Some peers).
Proof.
  unfold main_start, loadPeersData.
  destruct info as [state|err]; [|discriminate].
  destruct (collect HexToAddress Hex state) as [peers| |code] eqn:E; simpl;
    [|discriminate..].
  intros [= <-]. eauto.
Qed.

(** C7, as amended. A [get] on a cache that never received a snapshot
    returns the nil map and no error, and the handler would send the JSON
    document [null] for it, not an empty mapping. [main] serves only once
    the first load has succeeded: the cache it serves holds a map that is
    not nil, so the body is never [null], and when the directory listed no
    peer the body is the empty mapping. *)
Theorem publish_before_any_update (info : reply State) (data : cache) :
  main_start HexToAddress Hex info = Running data →
  get cache_zero = None
  ∧ handler cache_zero = Some JNull
  ∧ (∃ peers, get data = Some peers)
  ∧ handler data ≠ Some JNull
  ∧ (info = Reply [] → handler data = Some (JObject ∅)).
Proof.
  intros (state & peers & -> & Hc & ->)%main_start_running.
  split; [reflexivity|]. split; [reflexivity|].
  split; [by exists peers|]. split.
  - unfold handler, json_Marshal; simpl. case_decide; discriminate.
  - intros [= ->]. simpl in Hc. injection Hc as <-. reflexivity.
Qed.

(** C3, as amended. In the program whose [loadPeersData] returns an error
    (lines 162-250), a failed directory query at a tick produces no
    snapshot, leaves the cache as it was and lets the loop go on to the
    next event; in the second copy (lines 433-441 and 502-511) the same
    failure ends the process with status 1. *)
Theorem directory_failure_keeps_snapshot
    (data : cache) (err : error) (rest : list event) :
  loadPeersData HexToAddress Hex (Failed err) = Returned (None, Some err)
  ∧ main_step HexToAddress Hex data (Tick (Failed err)) = (Running data, None)
  ∧ main_loop HexToAddress Hex data (Tick (Failed err) :: rest)
    = main_loop HexToAddress Hex data rest
  ∧ MapProxyAlt.main_step HexToAddress Hex data (Tick (Failed err)) = (Exit 1, None).
Proof.
  repeat split; try reflexivity.
  cbn [main_loop main_step loadPeersData].
  destruct (main_loop HexToAddress Hex data rest); reflexivity.
Qed.

End SchedulerClaims.

(** Witness of C7: the directory answers with no peer at start-up. *)
Lemma publish_before_any_update_witness :
  MapProxy.main_start (λ s : string, s) (λ a : string, a) (Reply [])
    = MapProxy.Running (MapProxy.cache_of (Some ∅))
  ∧ MapProxy.handler (MapProxy.cache_of (Some ∅)) = Some (MapProxy.JObject ∅).
Proof.
  split; [reflexivity|].
  apply (publish_before_any_update (λ s : string, s) (λ a : string, a)
           (Reply []) (MapProxy.cache_of (Some ∅)) eq_refl).
  reflexivity.
Defined.

(** C7 as stated fails on the cache without a snapshot: the body is
    [null], which is not the empty mapping. *)
Lemma publish_on_zero_cache_is_null :
  MapProxy.get MapProxy.cache_zero = None
  ∧ MapProxy.handler MapProxy.cache_zero = Some MapProxy.JNull
  ∧ MapProxy.handler MapProxy.cache_zero ≠ Some (MapProxy.JObject ∅).
Proof. repeat split; discriminate. Qed.

(** C3 as stated fails on the second copy of the program: a failed
    directory query at a tick exits. *)
Lemma directory_failure_exits_second_copy :
  MapProxyAlt.main_step (λ s : string, s) (λ a : string, a)
    (MapProxy.cache_of (Some ∅)) (MapProxy.Tick (Failed "rv: unavailable"))
  = (MapProxy.Exit 1, None).
Proof. reflexivity. Qed.

(** ** Properties of the rounding operations *)

Section Rounding.
Local Open Scope Z_scope.

Lemma shr_1_nonneg (mrs : shr_record) : 0 ≤ shr_m mrs → 0 ≤ shr_m (shr_1 mrs).
Proof.
  destruct mrs as [m r s]; simpl.
  destruct m as [|[p|p|]|p]; simpl; lia.
Qed.

Lemma iter_shr_1_nonneg (p : positive) (mrs : shr_record) :
  0 ≤ shr_m mrs → 0 ≤ shr_m (SpecFloat.iter_pos shr_1 p mrs).
Proof.
  revert mrs. induction p as [p IH|p IH|]; intros mrs H; simpl.
  - apply IH, IH, shr_1_nonneg, H.
  - apply IH, IH, H.
  - apply shr_1_nonneg, H.
Qed.

Lemma shr_fexp_nonneg (prec emax m e : Z) (l : location) :
  0 ≤ m → 0 ≤ shr_m (shr_fexp prec emax m e l).1.
Proof.
  intros H. unfold shr_fexp, shr.
  assert (H0 : 0 ≤ shr_m (shr_record_of_loc m l)) by (destruct l as [|[]]; exact H).
  destruct (fexp prec emax (Zdigits2 m + e) - e); simpl; try exact H0.
  apply iter_shr_1_nonneg, H0.
Qed.

Lemma round_nearest_even_nonneg (m : Z) (l : location) :
  0 ≤ m → 0 ≤ round_nearest_even m l.
Proof.
  intros H. destruct l as [|[]]; simpl; try lia.
  destruct (Z.even m); lia.
Qed.

Lemma binary_round_aux_plus (prec emax m e : Z) (l : location) :
  0 ≤ m → plus_signed (binary_round_aux prec emax false m e l).
Proof.
  intros H. unfold binary_round_aux.
  pose proof (shr_fexp_nonneg prec emax m e l H) as H1.
  destruct (shr_fexp prec emax m e l) as [mrs' e']. simpl in H1.
  pose proof (shr_fexp_nonneg prec emax _ e' loc_Exact
                (round_nearest_even_nonneg _ (loc_of_shr_record mrs') H1)) as H2.
  destruct (shr_fexp prec emax (round_nearest_even (shr_m mrs') (loc_of_shr_record mrs'))
              e' loc_Exact) as [mrs'' e'']. simpl in H2.
  destruct (shr_m mrs'') as [|q|q]; simpl; [exact I| |lia].
  destruct (e'' <=? emax - prec); exact I.
Qed.

Lemma binary_round_plus (prec emax : Z) (m : positive) (e : Z) :
  plus_signed (binary_round prec emax false m e).
Proof.
  unfold binary_round.
  destruct (shl_align m e (fexp prec emax (Z.pos (digits2_pos m) + e))) as [mz ez].
  apply binary_round_aux_plus. lia.
Qed.

Lemma binary_normalize_plus (prec emax m e : Z) :
  0 ≤ m → plus_signed (binary_normalize prec emax m e false).
Proof.
  intros H. destruct m as [|p|p]; simpl; [exact I| |lia].
  apply binary_round_plus.
Qed.

Lemma SFdiv_core_nonneg (prec emax : Z) (m1 m2 : positive) (e1 e2 : Z) :
  0 ≤ (SFdiv_core_binary prec emax (Z.pos m1) e1 (Z.pos m2) e2).1.1.
Proof.
  unfold SFdiv_core_binary.
  set (s := e1 - e2 - _).
  set (m' := match s with Z.pos _ => Z.shiftl (Z.pos m1) s | 0 => Z.pos m1 | Z.neg _ => 0 end).
  assert (Hm : 0 ≤ m').
  { unfold m'. destruct s; try lia. apply Z.shiftl_nonneg. lia. }
  pose proof (Z_div_mod m' (Z.pos m2) eq_refl) as Hd.
  destruct (Z.div_eucl m' (Z.pos m2)) as [q r]. simpl. nia.
Qed.

Lemma SFdiv_plus (prec emax : Z) (x y : spec_float) :
  plus_signed x → (∃ m e, y = S754_finite false m e) →
  plus_signed (SFdiv prec emax x y).
Proof.
  intros Hx (my & ey & ->).
  destruct x as [[]|[]| |[] mx ex]; simpl in Hx; try contradiction; try exact I.
  unfold SFdiv.
  pose proof (SFdiv_core_nonneg prec emax mx my ex ey) as H.
  destruct (SFdiv_core_binary prec emax (Z.pos mx) ex (Z.pos my) ey) as [[mz ez] lz].
  apply binary_round_aux_plus, H.
Qed.

Lemma Float64_plus (x : spec_float) : plus_signed x → plus_signed (Float64 x).
Proof.
  destruct x as [[]|[]| |[] m e]; simpl; try contradiction; try (intros; exact I).
  intros _. apply binary_round_plus.
Qed.

Lemma plus_signed_nonneg (f : float64) : plus_signed f → float64_nonneg f = true.
Proof. destruct f as [[]|[]| |[] m e]; simpl; try contradiction; reflexivity. Qed.

End Rounding.

(** ** Properties of loadDeals *)

Section DealTotals.
Import MapProxy.
Local Open Scope Z_scope.

Lemma wrap_uint64_add (a b : Z) : wrap_uint64 (wrap_uint64 a + b) = wrap_uint64 (a + b).
Proof. unfold wrap_uint64. apply Z.add_mod_idemp_l. lia. Qed.

Lemma wrap_int_add (a b : Z) : wrap_int (wrap_int a + b) = wrap_int (a + b).
Proof.
  unfold wrap_int. f_equal.
  replace ((a + 2 ^ 63) mod 2 ^ 64 - 2 ^ 63 + b + 2 ^ 63)
    with ((a + 2 ^ 63) mod 2 ^ 64 + b) by lia.
  rewrite Z.add_mod_idemp_l by lia. f_equal. lia.
Qed.

Lemma sum_over_cons {A} (f : A → Z) (a : A) (l : list A) :
  sum_over f (a :: l) = f a + sum_over f l.
Proof. reflexivity. Qed.

(** What the loop of lines 147-153 leaves in the point and in [income]. *)
Lemma deal_loop (ds : list Deal) (p : PeerPoint) (income n c g : Z) :
  Count p = wrap_int n → CPUCount p = wrap_uint64 c → GPUCount p = wrap_uint64 g →
  let r := foldl deal_step (p, income) ds in
  r.2 = income + sum_over deal_Price ds
  ∧ Count r.1 = wrap_int (n + Z.of_nat (length ds))
  ∧ CPUCount r.1 = wrap_uint64 (c + sum_over deal_CPUCores ds)
  ∧ GPUCount r.1 = wrap_uint64 (g + sum_over deal_GPUCount ds)
  ∧ RAMSize r.1 = List.last (deal_RAMSize <$> ds) (RAMSize p)
  ∧ Lat r.1 = Lat p ∧ Lon r.1 = Lon p ∧ Income r.1 = Income p.
Proof.
  revert p income n c g.
  induction ds as [|d ds IH]; intros p income n c g Hn Hc Hg.
  - simpl. rewrite !Z.add_0_r. auto 10.
  - cbn [foldl].
    destruct (deal_step (p, income) d) as [q income'] eqn:E.
    unfold deal_step in E. injection E as Eq Ei.
    assert (Hn' : Count q = wrap_int (n + 1))
      by (rewrite <- Eq; simpl; rewrite Hn; apply wrap_int_add).
    assert (Hc' : CPUCount q = wrap_uint64 (c + deal_CPUCores d))
      by (rewrite <- Eq; simpl; rewrite Hc; apply wrap_uint64_add).
    assert (Hg' : GPUCount q = wrap_uint64 (g + deal_GPUCount d))
      by (rewrite <- Eq; simpl; rewrite Hg; apply wrap_uint64_add).
    destruct (IH q income' _ _ _ Hn' Hc' Hg') as (H1 & H2 & H3 & H4 & H5 & H6 & H7 & H8).
    cbv zeta. rewrite H1, H2, H3, H4, H5, H6, H7, H8, <- Eq, <- Ei.
    rewrite !sum_over_cons.
    cbn [length fmap list_fmap RAMSize Lat Lon Income].
    rewrite last_cons.
    repeat split; try reflexivity; try lia; f_equal; lia.
Qed.

Lemma sum_over_nonneg {A} (f : A → Z) (l : list A) :
  Forall (λ a, 0 ≤ f a) l → 0 ≤ sum_over f l.
Proof. induction 1; simpl; lia. Qed.

Lemma normalize_plus (x : Z) : 0 ≤ x → plus_signed (normalize x).
Proof.
  intros H. unfold normalize. apply Float64_plus, SFdiv_plus.
  - apply binary_normalize_plus, H.
  - eexists _, _. vm_compute. reflexivity.
Qed.

(** C8. For agreements whose prices are not negative, the income is the
    exact integer sum of the prices times 3600 - integers without bound,
    so nothing is lost - and only then made a floating-point number, by the
    division by [params.Ether]; the rate stored is not negative. *)
Theorem income_is_exact_until_normalized (ds : list Deal) :
  Forall (λ d, 0 ≤ deal_Price d) ds →
  let perHour := sum_over deal_Price ds * 3600 in
  0 ≤ perHour
  ∧ (loadDeals (Reply ds)).2 = None
  ∧ Income (loadDeals (Reply ds)).1
    = Float64 (Quo (SetInt perHour) (NewFloat (float64_of_const params_Ether)))
  ∧ float64_nonneg (Income (loadDeals (Reply ds)).1) = true.
Proof.
  intros Hds perH.
  assert (Hp : 0 ≤ perH) by (pose proof (sum_over_nonneg _ _ Hds); unfold perH; lia).
  unfold loadDeals.
  destruct (deal_loop ds PeerPoint_zero 0 0 0 0 eq_refl eq_refl eq_refl) as [Hi _].
  destruct (foldl deal_step (PeerPoint_zero, 0) ds) as [p income].
  simpl in Hi. subst income. rewrite Z.add_0_l. cbn [fst snd with_Income Income].
  fold perH. split; [exact Hp|]. split; [reflexivity|]. split; [reflexivity|].
  apply plus_signed_nonneg, normalize_plus, Hp.
Qed.

End DealTotals.

(** Witness of C8: two agreements, of 5 * 10^14 and 25 * 10^13 wei a second;
    the rate is 2.7 an hour. *)
Lemma income_is_exact_until_normalized_witness :
  MapProxy.Income
    (MapProxy.loadDeals
       (Reply [ {| MapProxy.deal_CPUCores := 2; MapProxy.deal_GPUCount := 0;
                   MapProxy.deal_RAMSize := 1024; MapProxy.deal_Price := 500000000000000 |};
                {| MapProxy.deal_CPUCores := 4; MapProxy.deal_GPUCount := 1;
                   MapProxy.deal_RAMSize := 2048; MapProxy.deal_Price := 250000000000000 |} ])).1
  = S754_finite false 6079859496950170 (-51).
Proof.
  etransitivity.
  - apply (income_is_exact_until_normalized
             [ {| MapProxy.deal_CPUCores := 2; MapProxy.deal_GPUCount := 0;
                  MapProxy.deal_RAMSize := 1024; MapProxy.deal_Price := 500000000000000 |};
               {| MapProxy.deal_CPUCores := 4; MapProxy.deal_GPUCount := 1;
                  MapProxy.deal_RAMSize := 2048; MapProxy.deal_Price := 250000000000000 |} ]).
    repeat constructor; simpl; lia.
  - vm_compute. reflexivity.
Defined.

(** ** Properties of one refresh cycle *)

Section AggregatorProperties.
Import MapProxy.
Context {Address : Type}.
Variable HexToAddress : string → Address.
Variable Hex : Address → string.

(** One run of the inner loop body stores the server's record, if any. *)
Lemma server_body_merge (addr k : string) (peers : gmap string PeerPoint) (srv : Server) :
  peer_key HexToAddress Hex addr = Some k →
  server_body HexToAddress Hex addr peers srv
  = Returned (foldl merge peers (option_list (pair k <$> resolved srv))).
Proof.
  unfold peer_key, server_body, resolved. intros Hk.
  destruct (Split_slashes addr !! 1%nat) as [part|]; [|discriminate].
  injection Hk as <-.
  destruct (loadDeals (dwh_GetDeals srv)) as [point [e|]]; [reflexivity|].
  destruct (db_City srv) as [rec|e]; reflexivity.
Qed.

Lemma servers_loop_merge (addr k : string) (servers : list Server)
    (peers : gmap string PeerPoint) :
  peer_key HexToAddress Hex addr = Some k →
  range_loop (server_body HexToAddress Hex addr) servers peers
  = Returned (foldl merge peers (omap (λ srv, pair k <$> resolved srv) servers)).
Proof.
  intros Hk. revert peers.
  induction servers as [|srv servers IH]; intros peers; [reflexivity|].
  cbn [range_loop omap list_omap]. rewrite (server_body_merge _ _ _ _ Hk).
  cbn [bind]. rewrite IH.
  destruct (resolved srv); reflexivity.
Qed.

Lemma state_body_merge (entry : string * list Server) (peers : gmap string PeerPoint) :
  wellformed_entry entry = true →
  state_body HexToAddress Hex peers entry
  = Returned (foldl merge peers (entry_records HexToAddress Hex entry)).
Proof.
  destruct entry as [addr servers].
  unfold wellformed_entry, state_body, entry_records; cbn [fst snd].
  destruct servers as [|srv servers].
  - intros _. destruct (peer_key HexToAddress Hex addr); reflexivity.
  - destruct (Split_slashes addr !! 1%nat) as [part|] eqn:E; [|discriminate].
    intros _.
    assert (Hk : peer_key HexToAddress Hex addr = Some (Hex (HexToAddress part)))
      by (unfold peer_key; rewrite E; reflexivity).
    rewrite Hk. apply servers_loop_merge, Hk.
Qed.

Lemma states_loop_merge (state : State) (peers : gmap string PeerPoint) :
  wellformed state = true →
  range_loop (state_body HexToAddress Hex) state peers
  = Returned (foldl merge peers (records HexToAddress Hex state)).
Proof.
  revert peers. induction state as [|entry state IH]; intros peers; [reflexivity|].
  unfold wellformed. cbn [forallb]. intros [He Hs]%andb_true_iff.
  cbn [range_loop]. rewrite (state_body_merge _ _ He). cbn [bind].
  unfold records. rewrite bind_cons, foldl_app. apply IH, Hs.
Qed.

(** With addresses of the expected form, a cycle is the merge of its
    records into a fresh map, in the order of the loops. *)
Lemma collect_merges_records (state : State) :
  wellformed state = true →
  collect HexToAddress Hex state = Returned (foldl merge ∅ (records HexToAddress Hex state)).
Proof. apply states_loop_merge. Qed.

(** Where the records come from. *)
Lemma elem_of_records (state : State) (k : string) (p : PeerPoint) :
  (k, p) ∈ records HexToAddress Hex state ↔
  ∃ addr servers srv,
    (addr, servers) ∈ state ∧ srv ∈ servers
    ∧ peer_key HexToAddress Hex addr = Some k ∧ resolved srv = Some p.
Proof.
  unfold records. rewrite list_elem_of_bind. split.
  - intros ([addr servers] & Hin & He). unfold entry_records in Hin. cbn [fst snd] in Hin.
    destruct (peer_key HexToAddress Hex addr) as [k'|] eqn:Hk; [|by apply elem_of_nil in Hin].
    apply list_elem_of_omap in Hin as (srv & Hs & Hr).
    destruct (resolved srv) as [p'|] eqn:R; [|discriminate].
    injection Hr as <- <-. exists addr, servers, srv. auto.
  - intros (addr & servers & srv & He & Hs & Hk & Hr).
    exists (addr, servers). split; [|exact He].
    unfold entry_records. cbn [fst snd]. rewrite Hk.
    apply list_elem_of_omap. exists srv. rewrite Hr. auto.
Qed.

Lemma resolved_Some (srv : Server) (p : PeerPoint) :
  resolved srv = Some p ↔
  ∃ ds rec, dwh_GetDeals srv = Reply ds ∧ db_City srv = Reply rec
            ∧ p = with_location (loadDeals (Reply ds)).1 rec.
Proof.
  unfold resolved. split.
  - destruct (dwh_GetDeals srv) as [ds|e]; [|discriminate].
    destruct (loadDeals (Reply ds)) as [point [e|]] eqn:L.
    { unfold loadDeals in L. destruct (foldl deal_step _ ds). discriminate. }
    destruct (db_City srv) as [rec|e]; [|discriminate].
    intros [= <-]. exists ds, rec. rewrite L. auto.
  - intros (ds & rec & -> & -> & ->).
    unfold loadDeals. destruct (foldl deal_step _ ds). reflexivity.
Qed.

(** Lookups in a map built by merging. *)
Lemma merged_lookup_absent (l : list (string * PeerPoint)) (m : gmap string PeerPoint)
    (k : string) :
  k ∉ l.*1 → foldl merge m l !! k = m !! k.
Proof.
  revert m. induction l as [|[k' p'] l IH]; intros m Hk; [reflexivity|].
  cbn [foldl fmap list_fmap fst] in *. apply not_elem_of_cons in Hk as [Hne Hk].
  rewrite IH by exact Hk. unfold merge. cbn [fst snd].
  apply lookup_insert_ne. congruence.
Qed.

Lemma merged_lookup_present (l : list (string * PeerPoint)) (m : gmap string PeerPoint)
    (k : string) :
  k ∈ l.*1 → ∃ p, foldl merge m l !! k = Some p ∧ (k, p) ∈ l.
Proof.
  revert m. induction l as [|[k' p'] l IH]; intros m Hk; [by apply elem_of_nil in Hk|].
  cbn [foldl fmap list_fmap fst] in *.
  destruct (decide (k ∈ l.*1)) as [Hin|Hnin].
  - destruct (IH (merge m (k', p')) Hin) as (p & Hp & Hl).
    exists p. split; [exact Hp|]. by apply list_elem_of_further.
  - apply elem_of_cons in Hk as [->|Hk]; [|contradiction].
    exists p'. split; [|apply list_elem_of_here].
    rewrite merged_lookup_absent by exact Hnin.
    unfold merge. cbn [fst snd]. apply lookup_insert_eq.
Qed.

Lemma merged_lookup_Some (l : list (string * PeerPoint)) (k : string) (p : PeerPoint) :
  foldl merge ∅ l !! k = Some p → (k, p) ∈ l.
Proof.
  intros H. destruct (decide (k ∈ l.*1)) as [Hin|Hnin].
  - destruct (merged_lookup_present l ∅ k Hin) as (q & Hq & Hl). congruence.
  - rewrite merged_lookup_absent, lookup_empty in H by exact Hnin. discriminate.
Qed.

(** Merging is insensitive to the order of records with distinct keys. *)
Lemma merge_commute (m : gmap string PeerPoint) (a b : string * PeerPoint) :
  a.1 ≠ b.1 → merge (merge m a) b = merge (merge m b) a.
Proof. intros H. unfold merge. apply insert_insert_ne. congruence. Qed.

Lemma merge_idemp (m : gmap string PeerPoint) (a : string * PeerPoint) :
  merge (merge m a) a = merge m a.
Proof. unfold merge. apply insert_insert_eq. Qed.

Lemma merged_permutation (l1 l2 : list (string * PeerPoint)) :
  l1 ≡ₚ l2 → NoDup l1.*1 → ∀ m, foldl merge m l1 = foldl merge m l2.
Proof.
  induction 1 as [|x l1 l2 Hp IH|x y l|l1 l2 l3 Hp12 IH12 Hp23 IH23]; intros Hnd m.
  - reflexivity.
  - cbn [foldl]. apply IH. cbn [fmap list_fmap] in Hnd. by apply NoDup_cons in Hnd as [_ ?].
  - cbn [foldl]. f_equal. apply merge_commute.
    cbn [fmap list_fmap] in Hnd. apply NoDup_cons in Hnd as [Hx _].
    apply not_elem_of_cons in Hx as [Hx _]. exact Hx.
  - rewrite IH12 by exact Hnd. apply IH23.
    assert (HP : l1.*1 ≡ₚ l2.*1) by (by apply fmap_Permutation).
    by rewrite <- HP.
Qed.

Lemma wellformed_permutation (st1 st2 : State) :
  st1 ≡ₚ st2 → wellformed st1 = true → wellformed st2 = true.
Proof.
  unfold wellformed. intros Hp H.
  apply Is_true_true, forallb_True. apply Is_true_true, forallb_True in H.
  by rewrite <- Hp.
Qed.

End AggregatorProperties.

(** ** The claims about one refresh cycle *)

Section AggregatorClaims.
Import MapProxy.
Context {Address : Type}.
Variable HexToAddress : string → Address.
Variable Hex : Address → string.

(** C2, as amended. The snapshot of a cycle has one entry per peer
    address for which some server had both its ledger query and its
    geolocation lookup answered; the entry is the record of one such server
    alone - the totals [loadDeals] computed from that server's ledger
    answer, at the place of that server - and records are never added
    up, whatever their places. *)
Theorem snapshot_is_keyed_by_peer (state : State) :
  wellformed state = true →
  ∃ peers,
    collect HexToAddress Hex state = Returned peers
    ∧ (∀ k, is_Some (peers !! k) ↔ k ∈ (records HexToAddress Hex state).*1)
    ∧ (∀ k p, peers !! k = Some p →
         ∃ addr servers srv ds rec,
           (addr, servers) ∈ state ∧ srv ∈ servers
           ∧ peer_key HexToAddress Hex addr = Some k
           ∧ dwh_GetDeals srv = Reply ds ∧ db_City srv = Reply rec
           ∧ p = with_location (loadDeals (Reply ds)).1 rec).
Proof.
  intros Hwf. eexists. split; [apply collect_merges_records, Hwf|]. split.
  - intros k. split.
    + intros [p Hp]. apply merged_lookup_Some in Hp.
      apply list_elem_of_fmap. by exists (k, p).
    + intros Hk. destruct (merged_lookup_present _ ∅ k Hk) as (p & Hp & _). by exists p.
  - intros k p Hp. apply merged_lookup_Some, elem_of_records in Hp.
    destruct Hp as (addr & servers & srv & He & Hs & Hk & Hr).
    apply resolved_Some in Hr as (ds & rec & Hd & Hc & ->).
    exists addr, servers, srv, ds, rec. auto 10.
Qed.

(** C5. In a cycle whose directory query succeeded, a peer all of whose
    ledger queries failed has no entry in the snapshot, every peer with a
    server whose two lookups succeeded has one, and the cycle returns its
    snapshot without an error. *)
Theorem ledger_failure_skips_only_that_peer (state : State) :
  wellformed state = true →
  ∃ peers,
    loadPeersData HexToAddress Hex (Reply state) = Returned (Some peers, None)
    ∧ (∀ k,
         (∀ addr servers srv,
            (addr, servers) ∈ state → srv ∈ servers →
            peer_key HexToAddress Hex addr = Some k →
            ∃ err, dwh_GetDeals srv = Failed err) →
         peers !! k = None)
    ∧ (∀ addr servers srv k ds rec,
         (addr, servers) ∈ state → srv ∈ servers →
         peer_key HexToAddress Hex addr = Some k →
         dwh_GetDeals srv = Reply ds → db_City srv = Reply rec →
         is_Some (peers !! k)).
Proof.
  intros Hwf. eexists. split; [|split].
  - unfold loadPeersData. rewrite (collect_merges_records _ _ _ Hwf). reflexivity.
  - intros k Hfail. rewrite merged_lookup_absent; [apply lookup_empty|].
    intros ([k' p] & Hk' & Hin%elem_of_records)%list_elem_of_fmap.
    cbn [fst] in Hk'. subst k'.
    destruct Hin as (addr & servers & srv & He & Hs & Hk & Hr).
    destruct (Hfail addr servers srv He Hs Hk) as [err Herr].
    apply resolved_Some in Hr as (ds & rec & Hd & _). congruence.
  - intros addr servers srv k ds rec He Hs Hk Hd Hc.
    destruct (merged_lookup_present (records HexToAddress Hex state) ∅ k) as (p & Hp & _);
      [|by exists p].
    apply list_elem_of_fmap.
    exists (k, with_location (loadDeals (Reply ds)).1 rec). split; [reflexivity|].
    apply elem_of_records. exists addr, servers, srv.
    repeat split; try assumption.
    apply resolved_Some. eauto.
Qed.

(** C9, as amended. The merge is the assignment of a record under its peer
    address: merging two records with different addresses gives the same
    map in either order, merging a record twice is merging it once, and
    two orderings of a directory in which no address gets more than one
    record give the same snapshot. *)
Theorem merge_order_is_irrelevant_for_distinct_peers (st1 st2 : State) :
  st1 ≡ₚ st2 →
  wellformed st1 = true →
  NoDup (records HexToAddress Hex st1).*1 →
  collect HexToAddress Hex st1 = collect HexToAddress Hex st2
  ∧ (∀ m a b, a.1 ≠ b.1 → merge (merge m a) b = merge (merge m b) a)
  ∧ (∀ m a, merge (merge m a) a = merge m a).
Proof.
  intros Hp Hwf Hnd. split; [|split].
  - rewrite !collect_merges_records
      by eauto using wellformed_permutation.
    f_equal. apply merged_permutation; [|exact Hnd].
    unfold records. by rewrite Hp.
  - apply merge_commute.
  - apply merge_idemp.
Qed.

End AggregatorClaims.

(** ** The claims evaluated on the sample cycles *)

Section SampleCycles.
Import MapProxy Samples.

(** An address without the separator makes [parts[1]] panic, whatever the
    collaborators answer. *)
Example malformed_address_panics :
  collect HexToAddress Hex
    [(peer1, [server_at "10.0.0.1" (Reply [deal_small]) (Reply berlin)])] = Panicked.
Proof. reflexivity. Qed.

(** Witness of C2: the two sample peers. *)
Lemma snapshot_is_keyed_by_peer_witness :
  wellformed two_peers_one_point = true
  ∧ ∃ peers, collect HexToAddress Hex two_peers_one_point = Returned peers
             ∧ (∀ k, is_Some (peers !! k)
                     ↔ k ∈ (records HexToAddress Hex two_peers_one_point).*1).
Proof.
  split; [reflexivity|].
  destruct (snapshot_is_keyed_by_peer HexToAddress Hex two_peers_one_point eq_refl)
    as (peers & Hc & Hdom & _).
  exists peers. split; [exact Hc|exact Hdom].
Defined.

(** C2 as stated fails: two peers resolved to the same point stay two
    entries, each with its own count of 1 and its own cores; there is no
    combined entry with the sums. *)
Lemma two_peers_one_point_stay_two :
  ∃ peers,
    collect HexToAddress Hex two_peers_one_point = Returned peers
    ∧ size peers = 2%nat
    ∧ peers !! peer1
      = Some {| Lat := Latitude berlin; Lon := Longitude berlin; Count := 1;
                Income := float64_zero; CPUCount := 2; GPUCount := 0; RAMSize := 1024 |}
    ∧ peers !! peer2
      = Some {| Lat := Latitude berlin; Lon := Longitude berlin; Count := 1;
                Income := float64_zero; CPUCount := 4; GPUCount := 1; RAMSize := 2048 |}.
Proof.
  exists (foldl merge ∅ (records HexToAddress Hex two_peers_one_point)).
  split; [apply collect_merges_records; reflexivity|].
  repeat split; vm_compute; reflexivity.
Qed.

(** Witness of C5: the ledger fails for the second peer only. *)
Lemma ledger_failure_skips_only_that_peer_witness :
  wellformed ledger_down_for_peer2 = true
  ∧ ∃ peers,
      loadPeersData HexToAddress Hex (Reply ledger_down_for_peer2)
        = Returned (Some peers, None)
      ∧ is_Some (peers !! peer1).
Proof.
  split; [reflexivity|].
  destruct (ledger_failure_skips_only_that_peer HexToAddress Hex
              ledger_down_for_peer2 eq_refl) as (peers & Hl & _ & Hin).
  exists peers. split; [exact Hl|].
  apply (Hin ("tcp://" +:+ peer1)
           [server_at "10.0.0.1" (Reply [deal_small]) (Reply berlin)]
           (server_at "10.0.0.1" (Reply [deal_small]) (Reply berlin))
           peer1 [deal_small] berlin);
    try reflexivity.
  - apply list_elem_of_here.
  - apply list_elem_of_here.
Defined.

(** Witness of C9: the two sample peers, listed in either order. *)
Lemma merge_order_is_irrelevant_for_distinct_peers_witness :
  collect HexToAddress Hex two_peers_one_point
  = collect HexToAddress Hex (reverse two_peers_one_point).
Proof.
  apply (merge_order_is_irrelevant_for_distinct_peers HexToAddress Hex
           two_peers_one_point (reverse two_peers_one_point)).
  - symmetry. apply reverse_Permutation.
  - reflexivity.
  - vm_compute. repeat constructor; rewrite ?elem_of_cons, ?elem_of_nil; intuition congruence.
Defined.

(** C9 as stated fails: a peer listed twice, with servers at two places,
    ends at the place of whichever record is merged last. *)
Lemma same_peer_records_do_not_commute :
  reverse one_peer_two_points ≡ₚ one_peer_two_points
  ∧ collect HexToAddress Hex one_peer_two_points
    ≠ collect HexToAddress Hex (reverse one_peer_two_points).
Proof.
  split; [apply reverse_Permutation|].
  intros H.
  apply (f_equal (λ o, match o with
                       | Returned m => Lat <$> m !! peer1
                       | _ => None
                       end)) in H.
  vm_compute in H. discriminate H.
Qed.

End SampleCycles.

(** ** The per-peer totals and the geolocation policy *)

Section TotalsAndPolicy.
Import MapProxy Samples.
Local Open Scope Z_scope.

(** The totals of a peer, for any ledger answer: the count and the two
    unit counts are sums (in [int] and [uint64]); the memory size is the
    one of the last agreement. *)
Lemma loadDeals_totals (ds : list Deal) :
  let p := (loadDeals (Reply ds)).1 in
  Count p = wrap_int (Z.of_nat (length ds))
  ∧ CPUCount p = wrap_uint64 (sum_over deal_CPUCores ds)
  ∧ GPUCount p = wrap_uint64 (sum_over deal_GPUCount ds)
  ∧ RAMSize p = List.last (deal_RAMSize <$> ds) 0.
Proof.
  unfold loadDeals.
  destruct (deal_loop ds PeerPoint_zero 0 0 0 0 eq_refl eq_refl eq_refl)
    as (_ & H2 & H3 & H4 & H5 & _).
  destruct (foldl deal_step (PeerPoint_zero, 0) ds) as [p income].
  cbn [fst snd with_Income Count CPUCount GPUCount RAMSize] in *.
  rewrite !Z.add_0_l in *. auto.
Qed.

(** C4 on two agreements of 1024 and 2048 bytes of memory, 2 and 4 cores,
    0 and 1 GPU: the cores and the GPUs are added up, the memory is not -
    the total holds the 2048 of the last agreement where the sum is 3072. *)
Theorem ram_size_is_last_agreement_not_sum :
  let ds := [deal_small; deal_large] in
  let p := (loadDeals (Reply ds)).1 in
  CPUCount p = sum_over deal_CPUCores ds
  ∧ GPUCount p = sum_over deal_GPUCount ds
  ∧ RAMSize p = 2048
  ∧ sum_over deal_RAMSize ds = 3072
  ∧ RAMSize p ≠ sum_over deal_RAMSize ds.
Proof. vm_compute. repeat split; discriminate. Qed.

(** C6 on a server whose geolocation lookup fails, the database handing
    back its zero record with the error: rv-mon counts the server, under
    the geohash of latitude 0 and longitude 0 and with an empty name; its
    sibling and map-proxy leave the server out. *)
Theorem geo_failure_policy_differs (geohash_Encode : float64 → float64 → string) :
  RvMon.count_servers geohash_Encode [[unlocated_server]]
  = Returned
      {| RvMon.pointCounters := <[geohash_Encode float64_zero float64_zero := 1]> ∅;
         RvMon.nameCache := <[geohash_Encode float64_zero float64_zero := EmptyString]> ∅ |}
  ∧ RvMon.count_servers_sibling geohash_Encode [[unlocated_server]]
    = Returned RvMon.tables_empty
  ∧ collect HexToAddress Hex unlocated_peer = Returned ∅.
Proof.
  split; [|split].
  - cbn [RvMon.count_servers range_loop bind unlocated_server RvMon.server_body
         RvMon.db_City].
    unfold RvMon.count_point. cbn [RvMon.tables_empty RvMon.pointCounters].
    rewrite lookup_empty. reflexivity.
  - reflexivity.
  - rewrite collect_merges_records by reflexivity. reflexivity.
Qed.

End TotalsAndPolicy.

(** ** Further properties of the address split *)

Section AddressSplit.

Lemma split_slashes_sep (rest cur : string) :
  split_slashes (String "/" (String "/" rest)) cur
  = String.rev cur :: split_slashes rest EmptyString.
Proof. reflexivity. Qed.

Lemma split_slashes_other (c : ascii) (rest cur : string) :
  c ≠ "/"%char → split_slashes (String c rest) cur = split_slashes rest (String c cur).
Proof.
  intros Hc. destruct c as [[] [] [] [] [] [] [] []]; try reflexivity; by destruct Hc.
Qed.

Lemma split_slashes_single (c : ascii) (rest cur : string) :
  c ≠ "/"%char →
  split_slashes (String "/" (String c rest)) cur
  = split_slashes (String c rest) (String "/" cur).
Proof.
  intros Hc. destruct c as [[] [] [] [] [] [] [] []]; try reflexivity; by destruct Hc.
Qed.

Lemma split_slashes_length (s cur : string) : (1 ≤ length (split_slashes s cur))%nat.
Proof.
  revert cur. induction s as [|c s IH]; intros cur; [simpl; lia|].
  destruct (decide (c = "/"%char)) as [->|Hc].
  - destruct s as [|c' s']; [simpl; lia|].
    destruct (decide (c' = "/"%char)) as [->|Hc'].
    + rewrite split_slashes_sep. simpl. lia.
    + rewrite split_slashes_single by exact Hc'. apply IH.
  - rewrite split_slashes_other by exact Hc. apply IH.
Qed.

Lemma has_separator_tail (c : ascii) (s : string) :
  (c ≠ "/"%char ∨ ∀ c' s', s = String c' s' → c' ≠ "/"%char) →
  has_separator (String c s) ↔ has_separator s.
Proof.
  intros Hc. split.
  - intros (a & b & E). destruct a as [|x a].
    + simpl in E. injection E as -> ->.
      destruct Hc as [Hc|Hc]; [by destruct Hc|]. by destruct (Hc _ _ eq_refl).
    + simpl in E. injection E as -> ->. by exists a, b.
  - intros (a & b & ->). by exists (String c a), b.
Qed.

Lemma split_slashes_second (s cur : string) :
  is_Some (split_slashes s cur !! 1%nat) ↔ has_separator s.
Proof.
  revert cur. induction s as [|c s IH]; intros cur.
  - simpl. split; [intros [? [=]]|].
    intros (a & b & E). destruct a; discriminate.
  - destruct (decide (c = "/"%char)) as [->|Hc].
    + destruct s as [|c' s'].
      * simpl. split; [intros [? [=]]|].
        intros (a & b & E). destruct a as [|x [|y a]]; discriminate.
      * destruct (decide (c' = "/"%char)) as [->|Hc'].
        -- rewrite split_slashes_sep. split.
           ++ intros _. by exists EmptyString, s'.
           ++ intros _. apply lookup_lt_is_Some. simpl.
              pose proof (split_slashes_length s' EmptyString). lia.
        -- rewrite split_slashes_single by exact Hc'. rewrite IH.
           symmetry. apply has_separator_tail.
           right. by intros ?? [= <- <-].
    + rewrite split_slashes_other by exact Hc. rewrite IH.
      symmetry. apply has_separator_tail; auto.
Qed.

Lemma split_slashes_plain (s cur : string) :
  count_char "/" s = 0%nat → split_slashes s cur = [String.rev_app cur s].
Proof.
  revert cur. induction s as [|c s IH]; intros cur H; [reflexivity|].
  simpl in H. destruct (Ascii.eqb_spec c "/"%char) as [->|Hc]; [discriminate|].
  rewrite split_slashes_other by exact Hc. rewrite IH by exact H. reflexivity.
Qed.

Lemma split_slashes_prefix (proto rest cur : string) :
  count_char "/" proto = 0%nat →
  split_slashes (proto +:+ "//" +:+ rest) cur
  = String.rev_app cur proto :: split_slashes rest EmptyString.
Proof.
  revert cur. induction proto as [|c proto IH]; intros cur H; [reflexivity|].
  simpl in H. destruct (Ascii.eqb_spec c "/"%char) as [->|Hc]; [discriminate|].
  change (String c proto +:+ "//" +:+ rest) with (String c (proto +:+ "//" +:+ rest)).
  rewrite split_slashes_other by exact Hc. rewrite IH by exact H. reflexivity.
Qed.

End AddressSplit.

(** ** Further properties of one refresh cycle *)

Section AggregatorExtras.
Import MapProxy.
Context {Address : Type}.
Variable HexToAddress : string → Address.
Variable Hex : Address → string.

Lemma server_body_panics (addr : string) (peers : gmap string PeerPoint) (srv : Server) :
  Split_slashes addr !! 1%nat = None →
  server_body HexToAddress Hex addr peers srv = Panicked.
Proof. unfold server_body. by intros ->. Qed.

Lemma states_loop_panics (state : State) (peers : gmap string PeerPoint) :
  wellformed state = false →
  range_loop (state_body HexToAddress Hex) state peers = Panicked.
Proof.
  revert peers. induction state as [|entry state IH]; intros peers; [discriminate|].
  unfold wellformed. cbn [forallb range_loop].
  destruct (wellformed_entry entry) eqn:He.
  - rewrite (state_body_merge _ _ _ _ He). cbn [bind andb]. apply IH.
  - intros _. destruct entry as [addr [|srv servers]]; [discriminate|].
    unfold wellformed_entry in He. cbn [fst snd] in He.
    destruct (Split_slashes addr !! 1%nat) eqn:E; [discriminate|].
    unfold state_body. cbn [fst snd range_loop].
    by rewrite (server_body_panics _ _ _ E).
Qed.

(** X1. A cycle whose directory query succeeded ends in one of two ways:
    it returns the merge of its records and no error when every listed
    address that has a server carries the separator, and it panics
    otherwise; it never returns an error and never exits. *)
Theorem cycle_returns_or_panics (state : State) :
  loadPeersData HexToAddress Hex (Reply state)
  = if wellformed state
    then Returned (Some (foldl merge ∅ (records HexToAddress Hex state)), None)
    else Panicked.
Proof.
  unfold loadPeersData, collect. destruct (wellformed state) eqn:Hwf.
  - by rewrite states_loop_merge.
  - by rewrite states_loop_panics.
Qed.

(** X2. The body of the inner loop panics exactly when the address of
    the entry holds no [//]: whatever the ledger and the database answer,
    an address with the separator gets past [parts[1]] and one without it
    does not. *)
Theorem loop_body_panics_iff_no_separator
    (addr : string) (peers : gmap string PeerPoint) (srv : Server) :
  server_body HexToAddress Hex addr peers srv = Panicked ↔ ¬ has_separator addr.
Proof.
  pose proof (split_slashes_second addr EmptyString) as H.
  fold (Split_slashes addr) in H. unfold server_body.
  destruct (Split_slashes addr !! 1%nat) as [part|].
  - split.
    + destruct (loadDeals (dwh_GetDeals srv)) as [point [e|]]; [discriminate|].
      destruct (db_City srv); discriminate.
    + intros Hn. destruct Hn. apply H. by exists part.
  - split; [|done]. intros _ Hs. apply H in Hs as [? [=]].
Qed.

(** X3. For an address of the form [proto://eth], neither part holding a
    slash, a server whose two lookups succeed is stored under
    [Hex (HexToAddress eth)], with the totals of its deals and its place:
    the protocol plays no part in the key. *)
Theorem server_is_stored_under_its_eth_address
    (proto eth : string) (peers : gmap string PeerPoint) (srv : Server)
    (ds : list Deal) (rec : Location) :
  count_char "/" proto = 0%nat → count_char "/" eth = 0%nat →
  dwh_GetDeals srv = Reply ds → db_City srv = Reply rec →
  server_body HexToAddress Hex (proto +:+ "//" +:+ eth) peers srv
  = Returned (<[Hex (HexToAddress eth) := with_location (loadDeals (Reply ds)).1 rec]> peers).
Proof.
  intros Hp He Hd Hc. unfold server_body, Split_slashes.
  rewrite split_slashes_prefix by exact Hp.
  rewrite split_slashes_plain by exact He.
  cbn [lookup list_lookup String.rev_app]. rewrite Hd, Hc.
  unfold loadDeals. by destruct (foldl deal_step _ ds).
Qed.

(** X4. The last record stored under an address is the one the snapshot
    holds for it: later records of other addresses do not disturb it, and
    earlier records of the same address are overwritten. *)
Theorem last_record_of_a_peer_wins
    (state : State) (before after : list (string * PeerPoint))
    (k : string) (p : PeerPoint) :
  wellformed state = true →
  records HexToAddress Hex state = before ++ (k, p) :: after →
  k ∉ after.*1 →
  ∃ peers, collect HexToAddress Hex state = Returned peers ∧ peers !! k = Some p.
Proof.
  intros Hwf Hr Hk. eexists. split; [apply collect_merges_records, Hwf|].
  rewrite Hr, foldl_app. cbn [foldl].
  rewrite merged_lookup_absent by exact Hk.
  unfold merge. cbn [fst snd]. apply lookup_insert_eq.
Qed.

Lemma merged_dom (l : list (string * PeerPoint)) (m : gmap string PeerPoint) :
  dom (foldl merge m l) = dom m ∪ list_to_set l.*1.
Proof.
  revert m. induction l as [|[k p] l IH]; intros m.
  - cbn [foldl fmap list_fmap]. by rewrite list_to_set_nil, (right_id_L ∅ (∪)).
  - cbn [foldl fmap list_fmap fst]. rewrite IH, list_to_set_cons.
    unfold merge. cbn [fst snd]. rewrite dom_insert_L.
    by rewrite (comm_L (∪) {[k]} (dom m)), (assoc_L (∪)).
Qed.

Lemma records_keys (state : State) :
  (records HexToAddress Hex state).*1 ⊆ omap (peer_key HexToAddress Hex) state.*1.
Proof.
  intros k ([k' p] & -> & Hin)%list_elem_of_fmap.
  apply elem_of_records in Hin as (addr & servers & srv & He & _ & Hk & _).
  apply list_elem_of_omap. exists addr. split; [|exact Hk].
  apply list_elem_of_fmap. by exists (addr, servers).
Qed.

Lemma size_list_to_set_le (l : list string) :
  size (list_to_set l : gset string) ≤ length l.
Proof.
  induction l as [|x l IH]; [by rewrite list_to_set_nil, size_empty|].
  rewrite list_to_set_cons. cbn [length].
  pose proof (size_union_alt ({[x]} : gset string) (list_to_set l)) as H.
  pose proof (subseteq_size (list_to_set l ∖ {[x]} : gset string) (list_to_set l)) as H'.
  rewrite H, size_singleton.
  specialize (H' (subseteq_difference_l _ _ _ (reflexivity _))). lia.
Qed.

Lemma omap_length_le {A B} (f : A → option B) (l : list A) :
  length (omap f l) ≤ length l.
Proof.
  induction l as [|x l IH]; [done|]. cbn [omap list_omap length].
  destruct (f x); cbn [length]; lia.
Qed.

(** X5. A snapshot has at most one entry per directory entry: its size
    is bounded by the number of addresses the directory listed. *)
Theorem snapshot_size_bounded_by_directory (state : State) :
  wellformed state = true →
  ∃ peers, collect HexToAddress Hex state = Returned peers
           ∧ size peers ≤ length state.
Proof.
  intros Hwf. eexists. split; [apply collect_merges_records, Hwf|].
  rewrite <- (size_dom (foldl merge ∅ (records HexToAddress Hex state))).
  rewrite merged_dom, dom_empty_L, (left_id_L ∅ (∪)).
  etrans; [apply subseteq_size|].
  { intros k Hk%elem_of_list_to_set. apply elem_of_list_to_set, records_keys, Hk. }
  etrans; [apply size_list_to_set_le|].
  etrans; [apply omap_length_le|]. by rewrite length_fmap.
Qed.

(** X6. The two copies of the program take the same step on every event
    but a tick whose directory query failed. *)
Theorem copies_differ_only_on_directory_failure (data : cache) (ev : event) :
  (∀ err, ev ≠ Tick (Failed err)) →
  MapProxyAlt.main_step HexToAddress Hex data ev
  = MapProxy.main_step HexToAddress Hex data ev.
Proof.
  intros Hev. destruct ev as [[state|err]| | |]; try reflexivity.
  - unfold MapProxyAlt.main_step, main_step, MapProxyAlt.loadPeersData, loadPeersData.
    destruct (collect HexToAddress Hex state); reflexivity.
  - by destruct (Hev err).
Qed.

End AggregatorExtras.

(** ** Further properties of loadDeals *)

Section DealExtras.
Import MapProxy.
Local Open Scope Z_scope.

Lemma binary_round_aux_number (prec emax : Z) (sx : bool) (m e : Z) (l : location) :
  0 ≤ m → is_number (binary_round_aux prec emax sx m e l).
Proof.
  intros H. unfold binary_round_aux.
  pose proof (shr_fexp_nonneg prec emax m e l H) as H1.
  destruct (shr_fexp prec emax m e l) as [mrs' e']. simpl in H1.
  pose proof (shr_fexp_nonneg prec emax _ e' loc_Exact
                (round_nearest_even_nonneg _ (loc_of_shr_record mrs') H1)) as H2.
  destruct (shr_fexp prec emax (round_nearest_even (shr_m mrs') (loc_of_shr_record mrs'))
              e' loc_Exact) as [mrs'' e'']. simpl in H2.
  destruct (shr_m mrs'') as [|q|q]; simpl; [exact I| |lia].
  destruct (e'' <=? emax - prec); exact I.
Qed.

Lemma binary_round_number (prec emax : Z) (sx : bool) (m : positive) (e : Z) :
  is_number (binary_round prec emax sx m e).
Proof.
  unfold binary_round.
  destruct (shl_align m e (fexp prec emax (Z.pos (digits2_pos m) + e))) as [mz ez].
  apply binary_round_aux_number. lia.
Qed.

Lemma binary_normalize_number (prec emax m e : Z) (sz : bool) :
  is_number (binary_normalize prec emax m e sz).
Proof. destruct m; simpl; [exact I|apply binary_round_number..]. Qed.

Lemma SFdiv_number (prec emax : Z) (x : spec_float) (sy : bool) (my : positive) (ey : Z) :
  is_number x → is_number (SFdiv prec emax x (S754_finite sy my ey)).
Proof.
  destruct x as [sx|sx| |sx mx ex]; simpl; try (intros; exact I); [contradiction|].
  intros _.
  pose proof (SFdiv_core_nonneg prec emax mx my ex ey) as H.
  destruct (SFdiv_core_binary prec emax (Z.pos mx) ex (Z.pos my) ey) as [[mz ez] lz].
  apply binary_round_aux_number, H.
Qed.

Lemma normalize_number (x : Z) : is_number (normalize x).
Proof.
  unfold normalize.
  assert (Hq : is_number (Quo (SetInt x) (NewFloat (float64_of_const params_Ether)))).
  { change (NewFloat (float64_of_const params_Ether))
      with (S754_finite false 7812500000000000 7).
    apply SFdiv_number, binary_normalize_number. }
  destruct (Quo (SetInt x) (NewFloat (float64_of_const params_Ether)))
    as [s|s| |s m e]; simpl in *; try exact I; [contradiction|].
  apply binary_round_number.
Qed.

(** The income of a peer is a function of the exact sum of its prices. *)
Lemma loadDeals_income (ds : list Deal) :
  Income (loadDeals (Reply ds)).1 = normalize (perHour (sum_over deal_Price ds)).
Proof.
  unfold loadDeals.
  destruct (deal_loop ds PeerPoint_zero 0 0 0 0 eq_refl eq_refl eq_refl) as [Hi _].
  destruct (foldl deal_step (PeerPoint_zero, 0) ds) as [p income].
  simpl in Hi. subst income. reflexivity.
Qed.

Lemma loadDeals_location (ds : list Deal) :
  Lat (loadDeals (Reply ds)).1 = float64_zero ∧ Lon (loadDeals (Reply ds)).1 = float64_zero.
Proof.
  unfold loadDeals.
  destruct (deal_loop ds PeerPoint_zero 0 0 0 0 eq_refl eq_refl eq_refl)
    as (_ & _ & _ & _ & _ & H6 & H7 & _).
  destruct (foldl deal_step (PeerPoint_zero, 0) ds) as [p income].
  simpl in *. auto.
Qed.

(** X7. When the readings of the deals are not negative and nothing
    overflows - fewer than 2^63 deals, sums of cores and of GPUs below
    2^64 - the point holds the number of deals and the exact sums of cores
    and GPUs; its memory size is the one of the last deal (0 without
    deals) and its place is still the zero place. *)
Theorem deal_totals_without_overflow (ds : list Deal) :
  Forall (λ d, 0 ≤ deal_CPUCores d ∧ 0 ≤ deal_GPUCount d) ds →
  Z.of_nat (length ds) < 2 ^ 63 →
  sum_over deal_CPUCores ds < 2 ^ 64 →
  sum_over deal_GPUCount ds < 2 ^ 64 →
  let p := (loadDeals (Reply ds)).1 in
  Count p = Z.of_nat (length ds)
  ∧ CPUCount p = sum_over deal_CPUCores ds
  ∧ GPUCount p = sum_over deal_GPUCount ds
  ∧ RAMSize p = List.last (deal_RAMSize <$> ds) 0
  ∧ Lat p = float64_zero ∧ Lon p = float64_zero.
Proof.
  intros Hds Hn Hc Hg p.
  destruct (loadDeals_totals ds) as (H1 & H2 & H3 & H4).
  destruct (loadDeals_location ds) as [H5 H6].
  assert (0 ≤ sum_over deal_CPUCores ds)
    by (apply sum_over_nonneg; eapply Forall_impl; [exact Hds|]; simpl; tauto).
  assert (0 ≤ sum_over deal_GPUCount ds)
    by (apply sum_over_nonneg; eapply Forall_impl; [exact Hds|]; simpl; tauto).
  unfold p. rewrite H1, H2, H3, H4, H5, H6.
  unfold wrap_int, wrap_uint64.
  rewrite !Z.mod_small by lia. repeat split; lia.
Qed.

(** X8. Whatever the prices - negative ones included - the income of a
    peer is a number or an infinity, never a NaN. *)
Theorem income_is_never_nan (ds : list Deal) :
  is_number (Income (loadDeals (Reply ds)).1).
Proof. rewrite loadDeals_income. apply normalize_number. Qed.

Lemma sum_over_permutation {A} (f : A → Z) (l1 l2 : list A) :
  l1 ≡ₚ l2 → sum_over f l1 = sum_over f l2.
Proof. induction 1; simpl; lia. Qed.

(** X9. The order in which the ledger lists the deals of a peer matters
    for the memory size only: two orderings of the same deals give the
    same count, cores, GPUs, income and place. *)
Theorem deal_order_matters_for_ram_only (ds1 ds2 : list Deal) :
  ds1 ≡ₚ ds2 →
  let p1 := (loadDeals (Reply ds1)).1 in
  let p2 := (loadDeals (Reply ds2)).1 in
  Count p1 = Count p2 ∧ CPUCount p1 = CPUCount p2 ∧ GPUCount p1 = GPUCount p2
  ∧ Income p1 = Income p2 ∧ Lat p1 = Lat p2 ∧ Lon p1 = Lon p2.
Proof.
  intros Hp p1 p2. unfold p1, p2.
  destruct (loadDeals_totals ds1) as (A1 & A2 & A3 & _).
  destruct (loadDeals_totals ds2) as (B1 & B2 & B3 & _).
  destruct (loadDeals_location ds1) as [A5 A6].
  destruct (loadDeals_location ds2) as [B5 B6].
  rewrite A1, A2, A3, A5, A6, B1, B2, B3, B5, B6, !loadDeals_income.
  rewrite (sum_over_permutation deal_CPUCores _ _ Hp),
    (sum_over_permutation deal_GPUCount _ _ Hp),
    (sum_over_permutation deal_Price _ _ Hp), (Permutation_length Hp).
  auto 10.
Qed.

End DealExtras.

(** ** Further properties of the scheduler loop *)

Section SchedulerExtras.
Import MapProxy.
Context {Address : Type}.
Variable HexToAddress : string → Address.
Variable Hex : Address → string.

Lemma loadPeersData_installs_a_map (info : reply State) (peers : peers_map) :
  loadPeersData HexToAddress Hex info = Returned (peers, None) → ∃ m, peers = Some m.
Proof.
  unfold loadPeersData. destruct info as [state|err]; [|discriminate].
  destruct (collect HexToAddress Hex state) as [m| |]; simpl; [|discriminate..].
  intros [= <-]. by exists m.
Qed.

Lemma main_step_running (data data' : cache) (ev : event) (out : option (option json)) :
  main_step HexToAddress Hex data ev = (Running data', out) →
  match installed_by HexToAddress Hex ev with
  | Some peers => data' = update data peers ∧ out = None
  | None => data' = data
            ∧ (out = None ∨ (ev = Request ∧ out = Some (handler data)))
  end.
Proof.
  destruct ev as [info| | |]; cbn [main_step installed_by]; try discriminate.
  - destruct (loadPeersData HexToAddress Hex info) as [[peers [e|]]| |];
      intros [= <- <-]; auto.
  - intros [= <- <-]. auto.
Qed.

(** X10. As long as the process runs, the cache holds the snapshot of the
    last tick that installed one, or the one it started with when no tick
    did: failed ticks and requests leave it alone. *)
Theorem cache_holds_latest_installed
    (data data' : cache) (evs : list event) (outs : list (option json)) :
  main_loop HexToAddress Hex data evs = (Running data', outs) →
  get data' = List.last (omap (installed_by HexToAddress Hex) evs) (get data).
Proof.
  revert data outs. induction evs as [|ev evs IH]; intros data outs.
  - cbn. by intros [= <- <-].
  - cbn [main_loop omap list_omap].
    destruct (main_step HexToAddress Hex data ev) as [[d| |] out] eqn:E;
      [|discriminate..].
    apply main_step_running in E.
    destruct (main_loop HexToAddress Hex d evs) as [p outs'] eqn:L.
    intros [= -> _].
    destruct (installed_by HexToAddress Hex ev) as [peers|].
    + destruct E as [-> _]. rewrite (IH _ _ L), get_update. symmetry. apply last_cons.
    + destruct E as [-> _]. apply (IH _ _ L).
Qed.

Lemma handler_not_null (data : cache) :
  is_Some (get data) → handler data ≠ Some JNull.
Proof.
  intros [m Hm]. unfold handler, json_Marshal. rewrite Hm.
  case_decide; discriminate.
Qed.

Lemma main_loop_never_null (data : cache) (evs : list event) (p : process)
    (outs : list (option json)) :
  is_Some (get data) →
  main_loop HexToAddress Hex data evs = (p, outs) →
  Forall (λ body, body ≠ Some JNull) outs
  ∧ ∀ data', p = Running data' → is_Some (get data').
Proof.
  revert data outs. induction evs as [|ev evs IH]; intros data outs Hd.
  - cbn. intros [= <- <-]. split; [constructor|]. by intros ? [= <-].
  - cbn [main_loop].
    destruct (main_step HexToAddress Hex data ev) as [[d| |] out] eqn:E;
      [|intros [= <- <-]; split; [constructor|discriminate]..].
    pose proof E as E'. apply main_step_running in E'.
    destruct (main_loop HexToAddress Hex d evs) as [p' outs'] eqn:L.
    intros [= <- <-].
    assert (Hd' : is_Some (get d)).
    { destruct ev as [info| | |]; cbn [installed_by] in E'.
      - destruct (loadPeersData HexToAddress Hex info) as [[peers [e|]]| |] eqn:Li;
          try (destruct E' as [-> _]; exact Hd).
        destruct E' as [-> _]. rewrite get_update.
        destruct (loadPeersData_installs_a_map _ _ Li) as [m ->]. by exists m.
      - destruct E' as [-> _]. exact Hd.
      - destruct E' as [-> _]. exact Hd.
      - destruct E' as [-> _]. exact Hd. }
    destruct (IH _ _ Hd' L) as [Hf Hr]. split; [|exact Hr].
    destruct out as [b|]; [|exact Hf]. constructor; [|exact Hf].
    destruct (installed_by HexToAddress Hex ev).
    + by destruct E' as [_ [=]].
    + destruct E' as [_ [[=]|[_ [= ->]]]]. by apply handler_not_null.
Qed.

(** X11. From start-up on, whatever events come and however the process
    ends, no body sent by the publish handler is the JSON document [null],
    and a process still running holds a map that is not nil. *)
Theorem publish_never_sends_null
    (info : reply State) (data : cache) (evs : list event)
    (p : process) (outs : list (option json)) :
  main_start HexToAddress Hex info = Running data →
  main_loop HexToAddress Hex data evs = (p, outs) →
  Forall (λ body, body ≠ Some JNull) outs
  ∧ ∀ data', p = Running data' → is_Some (get data').
Proof.
  intros (state & peers & _ & _ & ->)%main_start_running.
  apply main_loop_never_null. by exists peers.
Qed.

End SchedulerExtras.

(** ** Further properties of the monitors *)

Section MonitorExtras.
Import RvMon RvMonOutput.
Local Open Scope Z_scope.
Variable geohash_Encode : float64 → float64 → string.

Lemma range_loop_app {A S} (body : S → A → outcome S) (xs ys : list A) (acc : S) :
  range_loop body (xs ++ ys) acc = bind (range_loop body xs acc) (range_loop body ys).
Proof.
  revert acc. induction xs as [|x xs IH]; intros acc; [reflexivity|].
  cbn [app range_loop]. destruct (body acc x); cbn [bind]; [apply IH|reflexivity..].
Qed.

Lemma nested_range_loop {A S} (body : S → A → outcome S) (xss : list (list A)) (acc : S) :
  range_loop (λ t xs, range_loop body xs t) xss acc = range_loop body (concat xss) acc.
Proof.
  revert acc. induction xss as [|xs xss IH]; intros acc; [reflexivity|].
  cbn [range_loop concat]. rewrite range_loop_app.
  destruct (range_loop body xs acc); cbn [bind]; [apply IH|reflexivity..].
Qed.

Lemma count_point_tables (t : tables) (rec : City) :
  count_point geohash_Encode t rec
  = {| nameCache := <[point_of geohash_Encode rec := name_of rec]> (nameCache t);
       pointCounters :=
         <[point_of geohash_Encode rec :=
             wrap_int (from_option id 0 (pointCounters t !! point_of geohash_Encode rec) + 1)]>
           (pointCounters t) |}.
Proof.
  unfold count_point, point_of, name_of. f_equal.
  destruct (pointCounters t !! _); reflexivity.
Qed.

(** The loop of rv-mon either counts every server or panics on a nil
    record. *)
Lemma rv_mon_loop (servers : list Server) (t : tables) :
  range_loop (server_body geohash_Encode) servers t
  = if forallb (λ srv, bool_decide (is_Some (db_City srv).1)) servers
    then Returned (foldl (count_point geohash_Encode) t (omap (λ srv, (db_City srv).1) servers))
    else Panicked.
Proof.
  revert t. induction servers as [|srv servers IH]; intros t; [reflexivity|].
  cbn [range_loop forallb omap list_omap]. unfold server_body at 1.
  destruct (db_City srv) as [[rec|] err]; cbn [fst bind]; [|reflexivity].
  rewrite IH. rewrite bool_decide_eq_true_2 by eauto. reflexivity.
Qed.

(** The loop of the sibling skips the servers with an error. *)
Lemma sibling_loop (servers : list Server) (t t' : tables) :
  range_loop (server_body_sibling geohash_Encode) servers t = Returned t' →
  t' = foldl (count_point geohash_Encode) t
         (omap (λ srv, match (db_City srv).2 with
                       | Some _ => None
                       | None => (db_City srv).1
                       end) servers).
Proof.
  revert t. induction servers as [|srv servers IH]; intros t.
  - cbn. by intros [= <-].
  - cbn [range_loop omap list_omap]. unfold server_body_sibling at 1.
    destruct (db_City srv) as [rec [e|]]; cbn [fst snd bind]; [apply IH|].
    destruct rec as [rec|]; cbn [bind]; [apply IH|discriminate].
Qed.

(** The counters and the names after counting some records. *)
Lemma counted_tables (recs : list City) (t : tables) (h : string) :
  pointCounters (foldl (count_point geohash_Encode) t recs) !! h
  = match occurrences geohash_Encode h recs with
    | O => pointCounters t !! h
    | S _ as n => Some (wrap_int (from_option id 0 (pointCounters t !! h) + Z.of_nat n))
    end
  ∧ nameCache (foldl (count_point geohash_Encode) t recs) !! h
    = match last (filter (λ rec, point_of geohash_Encode rec = h) recs) with
      | Some rec => Some (name_of rec)
      | None => nameCache t !! h
      end
  ∧ (dom (nameCache t) = dom (pointCounters t) →
     dom (nameCache (foldl (count_point geohash_Encode) t recs))
     = dom (pointCounters (foldl (count_point geohash_Encode) t recs))).
Proof.
  revert t. induction recs as [|rec recs IH]; intros t; [done|].
  cbn [foldl]. destruct (IH (count_point geohash_Encode t rec)) as (IH1 & IH2 & IH3).
  rewrite IH1, IH2. clear IH1 IH2.
  rewrite count_point_tables in *. cbn [pointCounters nameCache] in *.
  unfold occurrences. rewrite filter_cons.
  destruct (decide (point_of geohash_Encode rec = h)) as [<-|Hne].
  - rewrite !lookup_insert_eq. cbn [length from_option id]. split; [|split].
    + destruct (length (filter _ recs)) as [|n] eqn:En.
      * f_equal.
      * f_equal. rewrite wrap_int_add. f_equal. lia.
    + match goal with |- context [last (rec :: ?l)] =>
        change (rec :: l) with ([rec] ++ l); rewrite (last_app [rec] l);
        by destruct (last l) end.
    + intros Hd. apply IH3. rewrite !dom_insert_L. by rewrite Hd.
  - rewrite !lookup_insert_ne by exact Hne. split; [done|]. split; [done|].
    intros Hd. apply IH3. rewrite !dom_insert_L. by rewrite Hd.
Qed.

End MonitorExtras.

Section MonitorTheorems.
Import RvMon RvMonOutput.
Local Open Scope Z_scope.
Variable geohash_Encode : float64 → float64 → string.

Lemma omap_all_length {A B} (f : A → option B) (l : list A) :
  forallb (λ x, bool_decide (is_Some (f x))) l = true →
  length (omap f l) = length l.
Proof.
  induction l as [|x l IH]; [done|]. cbn [forallb omap list_omap].
  intros [Hx Hl]%andb_true_iff. apply bool_decide_eq_true_1 in Hx as [y Hy].
  rewrite Hy. cbn [length]. by rewrite IH.
Qed.

Lemma forallb_false_witness {A} (f : A → bool) (l : list A) :
  forallb f l = false → ∃ x, x ∈ l ∧ f x = false.
Proof.
  induction l as [|x l IH]; [discriminate|]. cbn [forallb].
  destruct (f x) eqn:Hx.
  - intros (y & Hy & Hf)%IH. exists y. split; [by apply list_elem_of_further|exact Hf].
  - intros _. exists x. split; [apply list_elem_of_here|exact Hx].
Qed.

(** X12. When rv-mon gets through its loops, no server was left out, and
    the counter of a geohash is the number of servers whose record encodes
    to it (as an [int]); a geohash of no server has no counter. *)
Theorem rv_mon_counts_every_server (states : list (list Server)) (t : tables) :
  count_servers geohash_Encode states = Returned t →
  length (counted states) = length (concat states)
  ∧ ∀ h, pointCounters t !! h
         = match occurrences geohash_Encode h (counted states) with
           | O => None
           | S _ as n => Some (wrap_int (Z.of_nat n))
           end.
Proof.
  unfold count_servers. rewrite nested_range_loop, rv_mon_loop.
  destruct (forallb _ (concat states)) eqn:Hall; [|discriminate].
  intros [= <-]. split; [by apply omap_all_length|].
  intros h.
  destruct (counted_tables geohash_Encode (counted states) tables_empty h) as [H _].
  unfold counted in *. rewrite H. cbn [tables_empty pointCounters].
  rewrite lookup_empty. by destruct (occurrences _ _ _).
Qed.

(** X13. When the sibling gets through its loops, the counter of a geohash
    is the number of servers without a lookup error whose record encodes
    to it; servers with an error add nothing. *)
Theorem sibling_counts_located_servers (states : list (list Server)) (t : tables) :
  count_servers_sibling geohash_Encode states = Returned t →
  ∀ h, pointCounters t !! h
       = match occurrences geohash_Encode h (counted_sibling states) with
         | O => None
         | S _ as n => Some (wrap_int (Z.of_nat n))
         end.
Proof.
  unfold count_servers_sibling. rewrite nested_range_loop.
  intros ->%sibling_loop h.
  destruct (counted_tables geohash_Encode (counted_sibling states) tables_empty h)
    as [H _].
  unfold counted_sibling in *. rewrite H. cbn [tables_empty pointCounters].
  rewrite lookup_empty. by destruct (occurrences _ _ _).
Qed.

(** X14. In the tables of either monitor, the name kept for a geohash is
    the one of the last counted record that encodes to it: the English
    city name when there is one, the English country name otherwise. *)
Theorem name_is_the_one_of_the_last_record
    (states : list (list Server)) (t : tables) (recs : list City) :
  (count_servers geohash_Encode states = Returned t ∧ recs = counted states)
  ∨ (count_servers_sibling geohash_Encode states = Returned t
     ∧ recs = counted_sibling states) →
  ∀ h, nameCache t !! h
       = name_of <$> last (filter (λ rec, point_of geohash_Encode rec = h) recs).
Proof.
  intros H h.
  assert (Ht : t = foldl (count_point geohash_Encode) tables_empty recs).
  { destruct H as [[H ->]|[H ->]].
    - unfold count_servers in H. rewrite nested_range_loop, rv_mon_loop in H.
      destruct (forallb _ (concat states)); [|discriminate]. by injection H as <-.
    - unfold count_servers_sibling in H. rewrite nested_range_loop in H.
      by apply sibling_loop in H. }
  subst t.
  destruct (counted_tables geohash_Encode recs tables_empty h) as (_ & Hn & _).
  rewrite Hn. cbn [tables_empty nameCache]. rewrite lookup_empty.
  by destruct (last _).
Qed.

(** X15. On a directory none of whose servers meets a lookup error, rv-mon
    and its sibling end alike. *)
Theorem monitors_agree_without_errors (states : list (list Server)) :
  Forall (λ srv, (db_City srv).2 = None) (concat states) →
  count_servers geohash_Encode states = count_servers_sibling geohash_Encode states.
Proof.
  unfold count_servers, count_servers_sibling. rewrite !nested_range_loop.
  generalize tables_empty. induction (concat states) as [|srv servers IH];
    intros t Hall; [reflexivity|].
  apply Forall_cons in Hall as [Hs Hall].
  cbn [range_loop]. unfold server_body at 1, server_body_sibling at 1.
  destruct (db_City srv) as [rec err]. cbn [snd] in Hs. subst err.
  destruct rec as [rec|]; cbn [bind]; [|reflexivity]. by apply IH.
Qed.

(** X16. rv-mon panics exactly when [db.City] handed back a nil record for
    some server; otherwise it returns its tables. It never exits inside
    the loops. *)
Theorem rv_mon_panics_iff_nil_record (states : list (list Server)) :
  (count_servers geohash_Encode states = Panicked
   ↔ ∃ srv, srv ∈ concat states ∧ (db_City srv).1 = None)
  ∧ (count_servers geohash_Encode states ≠ Panicked
     → ∃ t, count_servers geohash_Encode states = Returned t).
Proof.
  unfold count_servers. rewrite nested_range_loop, rv_mon_loop.
  destruct (forallb _ (concat states)) eqn:Hall.
  - split; [|eauto]. split; [discriminate|].
    intros (srv & Hin & Hnil).
    apply Is_true_true, forallb_True in Hall.
    rewrite Forall_forall in Hall. specialize (Hall srv Hin).
    apply bool_decide_unpack in Hall as [? ?]. congruence.
  - split; [|by intros []]. split; [|done]. intros _.
    apply forallb_false_witness in Hall as (srv & Hin & Hn).
    exists srv. split; [exact Hin|].
    destruct (db_City srv).1 eqn:E; [|done].
    apply bool_decide_eq_false_1 in Hn. destruct Hn. eauto.
Qed.

End MonitorTheorems.

Section MonitorOutput.
Import RvMon RvMonOutput.
Variable geohash_Encode : float64 → float64 → string.

(** X17. The batch written to influx has one point per counted geohash:
    as many points as counters, no geohash twice, and a point for a geohash
    and a count exactly when that geohash has that counter; the name
    field is [names[hash]]. *)
Theorem batch_has_one_point_per_geohash
    (points : gmap string Z) (names : gmap string string) :
  length (Points (batch points names)) = size points
  ∧ NoDup (Field_geohash <$> Points (batch points names))
  ∧ ∀ h c, points !! h = Some c
           ↔ {| Measurement := "map_data"; Field_geohash := h;
                Field_name := names_at names h; Field_count := c;
                Precision := "s" |} ∈ Points (batch points names).
Proof.
  unfold batch, rows. cbn [Points]. split; [|split].
  - by rewrite !length_fmap, length_map_to_list.
  - rewrite <- !list_fmap_compose.
    apply (NoDup_fst_map_to_list points).
  - intros h c. rewrite <- (elem_of_map_to_list points h c), <- list_fmap_compose. split.
    + intros Hin. apply list_elem_of_fmap. by exists (h, c).
    + intros ([h' c'] & E & Hin)%list_elem_of_fmap.
      unfold point_of_row in E. cbn in E. injection E as E1 _ E2. by subst.
Qed.

(** X18. For the tables of either monitor, every row handed to the output
    carries a name that was stored for its geohash - the lookup
    [names[hash]] never falls back on the missing-key default - and the
    counter of that geohash. *)
Theorem every_row_has_its_stored_name (states : list (list Server)) (t : tables) :
  count_servers geohash_Encode states = Returned t
  ∨ count_servers_sibling geohash_Encode states = Returned t →
  ∀ h name c, (h, name, c) ∈ rows (pointCounters t) (nameCache t) →
              nameCache t !! h = Some name ∧ pointCounters t !! h = Some c.
Proof.
  intros H.
  assert (Ht : ∃ recs, t = foldl (count_point geohash_Encode) tables_empty recs).
  { destruct H as [H|H].
    - unfold count_servers in H. rewrite nested_range_loop, rv_mon_loop in H.
      destruct (forallb _ (concat states)); [|discriminate].
      injection H as <-. eauto.
    - unfold count_servers_sibling in H. rewrite nested_range_loop in H.
      apply sibling_loop in H. eauto. }
  destruct Ht as [recs ->].
  destruct (counted_tables geohash_Encode recs tables_empty EmptyString)
    as (_ & _ & Hdom).
  specialize (Hdom eq_refl).
  intros h name c ([h' c'] & E & Hin%elem_of_map_to_list)%list_elem_of_fmap.
  cbn [fst snd] in E. injection E as -> -> ->. split; [|exact Hin].
  assert (Hh : h' ∈ dom (nameCache (foldl (count_point geohash_Encode) tables_empty recs))).
  { rewrite Hdom. apply elem_of_dom. eauto. }
  apply elem_of_dom in Hh as [n Hn]. unfold names_at. by rewrite Hn.
Qed.

End MonitorOutput.

(** ** Properties of the relay-mon metrics *)

Section RelayMetrics.
Import RelayMon.

Lemma split_colon_first (s cur : string) :
  ∃ host, split_colon s cur !! 0%nat = Some (String.rev_app cur host)
          ∧ count_char ":" host = 0%nat
          ∧ (count_char "." host ≤ count_char "." s)%nat
          ∧ (String.length host ≤ String.length s)%nat.
Proof.
  revert cur. induction s as [|c s IH]; intros cur.
  - exists EmptyString. repeat split; simpl; lia.
  - cbn [split_colon]. destruct (Ascii.eqb_spec c ":"%char) as [->|Hc].
    + exists EmptyString. repeat split; simpl; lia.
    + destruct (IH (String c cur)) as (host & H1 & H2 & H3 & H4).
      exists (String c host). split; [exact H1|].
      cbn [count_char String.length].
      destruct (Ascii.eqb_spec c ":"%char); [contradiction|].
      repeat split; lia.
Qed.

Lemma Replace_dots_counts (s : string) (n : nat) :
  count_char ":" (Replace_dots s n) = count_char ":" s
  ∧ count_char "." (Replace_dots s n) = (count_char "." s - n)%nat
  ∧ String.length (Replace_dots s n) = String.length s.
Proof.
  revert n. induction s as [|c s IH]; intros n; [by destruct n|].
  destruct n as [|n]; [cbn [Replace_dots]; repeat split; lia|].
  cbn [Replace_dots]. destruct (Ascii.eqb_spec c "."%char) as [->|Hc].
  - destruct (IH n) as (H1 & H2 & H3). cbn. rewrite H1, H2, H3. repeat split; lia.
  - destruct (IH (S n)) as (H1 & H2 & H3). cbn [count_char String.length].
    rewrite H1, H2, H3.
    destruct (Ascii.eqb_spec c "."%char); [contradiction|].
    repeat split; lia.
Qed.

(** X19. relay-mon computes its metrics without a panic, and the label
    [iponly] it prints holds no colon, is no longer than the endpoint, and
    holds no dot either when the endpoint has at most four dots. *)
Theorem iponly_is_a_clean_label
    (endpointFlag : string) (expectedCountFlag : Z) (n : nat) (connCurrent : Z) :
  ∃ m, calculate endpointFlag expectedCountFlag n connCurrent = Returned m
       ∧ count_char ":" (iponly m) = 0%nat
       ∧ (String.length (iponly m) ≤ String.length endpointFlag)%nat
       ∧ ((count_char "." endpointFlag ≤ 4)%nat → count_char "." (iponly m) = 0%nat).
Proof.
  unfold calculate, Split_colon.
  destruct (split_colon_first endpointFlag EmptyString) as (host & -> & H2 & H3 & H4).
  cbn [String.rev_app]. eexists. split; [reflexivity|]. cbn [iponly].
  destruct (Replace_dots_counts host 4) as (R1 & R2 & R3).
  rewrite R1, R2, R3. repeat split; lia.
Qed.

(** X20. With the expected count a [uint] other than zero and a cluster of
    fewer than 2^63 members, the difference printed is zero exactly when
    the cluster has the expected size; a surplus is printed as it is, and
    a shortfall of [d] members wraps around to [2^64 - d]. *)
Theorem membersDiff_wraps_on_shortfall
    (endpointFlag : string) (expectedCountFlag : Z) (n : nat) (connCurrent : Z) :
  (0 < expectedCountFlag < 2 ^ 64)%Z → (Z.of_nat n < 2 ^ 63)%Z →
  ∃ m, calculate endpointFlag expectedCountFlag n connCurrent = Returned m
       ∧ members m = Z.of_nat n
       ∧ (membersDiff m = 0 ↔ Z.of_nat n = expectedCountFlag)%Z
       ∧ (expectedCountFlag ≤ Z.of_nat n →
          membersDiff m = Z.of_nat n - expectedCountFlag)%Z
       ∧ (Z.of_nat n < expectedCountFlag →
          membersDiff m = 2 ^ 64 - (expectedCountFlag - Z.of_nat n))%Z.
Proof.
  intros He Hn. unfold calculate, Split_colon.
  destruct (split_colon_first endpointFlag EmptyString) as (host & -> & _).
  eexists. split; [reflexivity|]. cbn [members membersDiff].
  assert (Hm : wrap_int (Z.of_nat n) = Z.of_nat n).
  { unfold wrap_int. rewrite Z.mod_small; lia. }
  rewrite Hm. unfold wrap_uint64. rewrite (Z.mod_small (Z.of_nat n)) by lia.
  split; [reflexivity|].
  destruct (Z_lt_le_dec (Z.of_nat n) expectedCountFlag) as [Hlt|Hge].
  - assert (E : ((Z.of_nat n - expectedCountFlag) mod 2 ^ 64
                 = 2 ^ 64 - (expectedCountFlag - Z.of_nat n))%Z).
    { symmetry. apply (Z.mod_unique_pos _ _ (-1)); lia. }
    rewrite E. repeat split; lia.
  - rewrite Z.mod_small by lia. repeat split; lia.
Qed.

End RelayMetrics.

(** ** The further properties on the sample inputs *)

Section ExtraWitnesses.
Import MapProxy Samples MoreSamples.

(** Witness of X3: the first sample peer listed under tcp. *)
Lemma server_is_stored_under_its_eth_address_witness :
  server_body HexToAddress Hex ("tcp:" +:+ "//" +:+ peer1) ∅
    (server_at "10.0.0.1" (Reply [deal_small]) (Reply berlin))
  = Returned (<[peer1 := with_location (loadDeals (Reply [deal_small])).1 berlin]> ∅).
Proof.
  apply (server_is_stored_under_its_eth_address HexToAddress Hex "tcp:" peer1 ∅
           (server_at "10.0.0.1" (Reply [deal_small]) (Reply berlin))
           [deal_small] berlin); reflexivity.
Defined.

(** Witness of X4: the peer listed twice ends at the place of its second
    record. *)
Lemma last_record_of_a_peer_wins_witness :
  ∃ peers, collect HexToAddress Hex one_peer_two_points = Returned peers
           ∧ peers !! peer1
             = Some (with_location (loadDeals (Reply [deal_small])).1 quito).
Proof.
  apply (last_record_of_a_peer_wins HexToAddress Hex one_peer_two_points
           [(peer1, with_location (loadDeals (Reply [deal_small])).1 berlin)] []
           peer1 (with_location (loadDeals (Reply [deal_small])).1 quito)).
  - reflexivity.
  - reflexivity.
  - apply not_elem_of_nil.
Defined.

(** Witness of X5: two listed addresses, at most two entries. *)
Lemma snapshot_size_bounded_by_directory_witness :
  ∃ peers, collect HexToAddress Hex two_peers_one_point = Returned peers
           ∧ size peers ≤ 2.
Proof.
  apply (snapshot_size_bounded_by_directory HexToAddress Hex two_peers_one_point).
  reflexivity.
Defined.

(** Witness of X6: a request. *)
Lemma copies_differ_only_on_directory_failure_witness :
  MapProxyAlt.main_step HexToAddress Hex (cache_of (Some ∅)) Request
  = MapProxy.main_step HexToAddress Hex (cache_of (Some ∅)) Request.
Proof.
  apply (copies_differ_only_on_directory_failure HexToAddress Hex).
  intros err. discriminate.
Defined.

(** Witness of X7: the two sample deals. *)
Lemma deal_totals_without_overflow_witness :
  CPUCount (loadDeals (Reply [deal_small; deal_large])).1
  = sum_over deal_CPUCores [deal_small; deal_large].
Proof.
  apply (deal_totals_without_overflow [deal_small; deal_large]).
  - repeat constructor; discriminate.
  - reflexivity.
  - reflexivity.
  - reflexivity.
Defined.

(** Witness of X9: the two sample deals in both orders. *)
Lemma deal_order_matters_for_ram_only_witness :
  Income (loadDeals (Reply [deal_small; deal_large])).1
  = Income (loadDeals (Reply [deal_large; deal_small])).1.
Proof.
  apply (deal_order_matters_for_ram_only [deal_small; deal_large]
           [deal_large; deal_small]).
  apply perm_swap.
Defined.

(** Witness of X10: the sample run, from a cache that holds an empty map. *)
Lemma cache_holds_latest_installed_witness :
  get {| green := None; blue := Some ∅ |} = Some ∅.
Proof.
  apply (cache_holds_latest_installed HexToAddress Hex (cache_of (Some ∅))
           {| green := None; blue := Some ∅ |} quiet_run [Some (JObject ∅)]).
  reflexivity.
Defined.

(** Witness of X11: start-up on an empty directory, then the sample run. *)
Lemma publish_never_sends_null_witness :
  Forall (λ body, body ≠ Some JNull) [Some (JObject ∅)].
Proof.
  apply (publish_never_sends_null HexToAddress Hex (Reply []) (cache_of (Some ∅))
           quiet_run (Running {| green := None; blue := Some ∅ |}) [Some (JObject ∅)]);
    reflexivity.
Defined.

(** Witness of X12: rv-mon on the server without a place. *)
Lemma rv_mon_counts_every_server_witness :
  length (counted [[unlocated_server]]) = length (concat [[unlocated_server]]).
Proof.
  apply (rv_mon_counts_every_server Encode [[unlocated_server]] unlocated_tables).
  reflexivity.
Defined.

(** Witness of X13: the sibling on a server with a place and one without. *)
Lemma sibling_counts_located_servers_witness :
  RvMon.pointCounters
    {| RvMon.pointCounters := {[ "u33db2m3728h"%string := 1%Z ]};
       RvMon.nameCache := {[ "u33db2m3728h"%string := "Berlin"%string ]} |}
    !! "s00000000000"%string = None.
Proof.
  apply (sibling_counts_located_servers Encode [[located_server; unlocated_server]]
           {| RvMon.pointCounters := {[ "u33db2m3728h"%string := 1%Z ]};
              RvMon.nameCache := {[ "u33db2m3728h"%string := "Berlin"%string ]} |}
           eq_refl "s00000000000"%string).
Defined.

(** Witness of X14: rv-mon on the server without a place keeps the empty
    name for the geohash of the zero place. *)
Lemma name_is_the_one_of_the_last_record_witness :
  RvMon.nameCache unlocated_tables !! "s00000000000"%string = Some EmptyString.
Proof.
  apply (name_is_the_one_of_the_last_record Encode [[unlocated_server]]
           unlocated_tables (counted [[unlocated_server]])
           (or_introl (conj eq_refl eq_refl)) "s00000000000"%string).
Defined.

(** Witness of X15: a directory with the located server only. *)
Lemma monitors_agree_without_errors_witness :
  RvMon.count_servers Encode [[located_server]]
  = RvMon.count_servers_sibling Encode [[located_server]].
Proof.
  apply (monitors_agree_without_errors Encode [[located_server]]).
  repeat constructor.
Defined.

(** Witness of X18: the one row of rv-mon on the server without a place. *)
Lemma every_row_has_its_stored_name_witness :
  RvMon.nameCache unlocated_tables !! "s00000000000"%string = Some EmptyString
  ∧ RvMon.pointCounters unlocated_tables !! "s00000000000"%string = Some 1%Z.
Proof.
  apply (every_row_has_its_stored_name Encode [[unlocated_server]] unlocated_tables
           (or_introl eq_refl) "s00000000000"%string EmptyString 1%Z).
  vm_compute. apply list_elem_of_here.
Defined.

(** Witness of X20: two members where three are expected. *)
Lemma membersDiff_wraps_on_shortfall_witness :
  ∃ m, RelayMon.calculate "10.0.0.1:12240" 3 2 7 = Returned m
       ∧ RelayMon.membersDiff m = (2 ^ 64 - 1)%Z.
Proof.
  destruct (membersDiff_wraps_on_shortfall "10.0.0.1:12240" 3 2 7)
    as (m & Hm & _ & _ & _ & Hd); [lia|simpl; lia|].
  exists m. split; [exact Hm|]. rewrite Hd by lia. reflexivity.
Defined.

End ExtraWitnesses.

(** ** Round trip of the address split, and the order of the slots *)

Section RoundTrips.
Import MapProxy.

Lemma rev_app_append (cur a b : string) :
  String.rev_app cur a +:+ b = String.rev_app cur (a +:+ b).
Proof.
  revert a. induction cur as [|c cur IH]; intros a; [reflexivity|].
  cbn [String.rev_app]. apply (IH (String c a)).
Qed.

Lemma Join_slashes_cons (part : string) (rest : list string) :
  rest ≠ [] → Join_slashes (part :: rest) = part +:+ "//" +:+ Join_slashes rest.
Proof. destruct rest; [done|reflexivity]. Qed.

Lemma split_slashes_nonempty (s cur : string) : split_slashes s cur ≠ [].
Proof.
  pose proof (split_slashes_length s cur) as H.
  destruct (split_slashes s cur); [simpl in H; lia|done].
Qed.

Lemma join_split_slashes (s : string) :
  (∀ cur, Join_slashes (split_slashes s cur) = String.rev_app cur s)
  ∧ (∀ c cur, Join_slashes (split_slashes (String c s) cur)
              = String.rev_app cur (String c s)).
Proof.
  induction s as [|c' s' [IH1 IH2]].
  - split; [reflexivity|]. intros c cur.
    destruct (decide (c = "/"%char)) as [->|Hc]; [reflexivity|].
    by rewrite split_slashes_other.
  - split; [apply IH2|]. intros c cur.
    destruct (decide (c = "/"%char)) as [->|Hc].
    + destruct (decide (c' = "/"%char)) as [->|Hc'].
      * rewrite split_slashes_sep, Join_slashes_cons by apply split_slashes_nonempty.
        rewrite IH1. cbn [String.rev_app]. unfold String.rev.
        by rewrite rev_app_append.
      * rewrite split_slashes_single by exact Hc'. apply IH2.
    + rewrite split_slashes_other by exact Hc. apply IH2.
Qed.

(** X21. Split and join are inverse on addresses: putting the parts of an
    address together again with [//] between them gives the address back,
    and there is always at least one part. *)
Theorem join_of_split_is_the_address (addr : string) :
  Join_slashes (Split_slashes addr) = addr ∧ Split_slashes addr ≠ [].
Proof.
  split; [apply (proj1 (join_split_slashes addr))|apply split_slashes_nonempty].
Qed.

(** X22. Two updates in a row write the two slots in turn, as long as the
    first one installs a map that is not nil: the second snapshot lands in
    the slot the first one did not take, and the first one is gone. *)
Theorem updates_alternate_slots (c : cache) (s1 s2 : peers_map) :
  s1 ≠ None →
  let c1 := update c s1 in
  let c2 := update c1 s2 in
  (green c1 = s1 ∧ blue c1 = None ∧ blue c2 = s2 ∧ green c2 = None)
  ∨ (blue c1 = s1 ∧ green c1 = None ∧ green c2 = s2 ∧ blue c2 = None).
Proof.
  intros Hs. unfold update.
  destruct (green c) as [g|]; cbn [green blue]; [by right|].
  destruct s1 as [m1|]; [by left|done].
Qed.

End RoundTrips.

(** Witness of X22: two snapshots into the cache [main] starts with. *)
Lemma updates_alternate_slots_witness :
  MapProxy.green (MapProxy.update (MapProxy.update (MapProxy.cache_of (Some ∅)) (Some ∅))
                    (Some ∅)) = Some ∅.
Proof.
  destruct (updates_alternate_slots (MapProxy.cache_of (Some ∅)) (Some ∅) (Some ∅))
    as [(H & _)|(_ & _ & H & _)]; [discriminate|discriminate|exact H].
Defined.
